(** * PmKLogDaemonUtil: bounded string helpers, process lock, integer parser

    A shallow embedding of [src/PmKLogDaemonUtil.c].

    - A [char] buffer is a [list byte]; the C string it holds is the run of
      bytes before the first [NUL].
    - A [const char*] argument is an [option (list byte)]: [None] is the
      null pointer, [Some s] the bytes at the pointer, a terminator
      understood after the last of them.
    - The string helpers run in a small state-and-error monad over the
      memory at the destination: the bytes readable from [dst] on (the
      buffer, and whatever lies behind it), the log of indices stored to,
      and the diagnostics printed.  An access outside that memory is
      undefined behaviour and is the monad's failure.
    - [size_t] values are [nat].  Every subtraction the helpers perform is
      guarded by the comparison just before it ([dstSize >= 1],
      [dstLen < dstSize]) and every sum is bounded by [dstSize - 1], so no
      unsigned wrap-around is reachable.
    - System calls are events; the values they return are supplied by the
      environment. *)

From Stdlib Require Import ZArith Lia.
From Stdlib Require Import Strings.Byte Strings.String DecimalString.
From Stdlib Require DecimalFacts DecimalPos.
From stdpp Require Import base tactics option list gmap.

Open Scope nat_scope.

(** ** Bytes and C strings *)

Definition NUL : byte := x00.

Definition bytes (s : string) : list byte := list_byte_of_string s.

(** [strlen]: the number of bytes before the first [NUL].  On a list with no
    [NUL] the scan reaches the end of the list. *)
Fixpoint strlen (s : list byte) : nat :=
  match s with
  | [] => 0
  | b :: s' => if Byte.eqb b NUL then 0 else S (strlen s')
  end.

(** The C string held at the start of [s]. *)
Definition cstring (s : list byte) : list byte := take (strlen s) s.

(** A buffer holds a terminated string shorter than [c]. *)
Definition terminated_below (c : nat) (m : list byte) : Prop :=
  strlen m < c ∧ m !! strlen m = Some NUL.

(** ** Diagnostics *)

Inductive arg :=
  | AStr (s : list byte)
  | AInt (z : Z)
  | AStrerror (err : Z).

Inductive diag :=
  | ErrPrint (fmt : string) (args : list arg)
  | DbgPrint (fmt : string) (args : list arg).

(** ** The destination object and the monad of the string helpers *)

Record bufstate := BufState {
  mem : list byte;     (* the bytes readable from [dst] on *)
  wlog : list nat;     (* indices stored to, oldest first *)
  dlog : list diag     (* diagnostics, oldest first *)
}.

Definition fresh (m : list byte) : bufstate := BufState m [] [].

(** State passing with failure; failure is undefined behaviour. *)
Definition SM (S A : Type) : Type := S → option (A * S).

Definition ret {S A} (a : A) : SM S A := λ st, Some (a, st).

Definition bind {S A B} (m : SM S A) (k : A → SM S B) : SM S B :=
  λ st, match m st with
        | Some (a, st') => k a st'
        | None => None
        end.

Notation "'do' x <- m ; k" := (bind m (λ x, k))
  (at level 10, x name, m at level 100, k at level 200).
Notation "m ;>> k" := (bind m (λ _, k))
  (at level 100, k at level 200, right associativity).

Definition M : Type → Type := SM bufstate.

(** [dst[i] = b] *)
Definition store (i : nat) (b : byte) : M unit :=
  λ st, if decide (i < length (mem st))
        then Some (tt, BufState (<[i:=b]> (mem st)) (wlog st ++ [i]) (dlog st))
        else None.

(** [memcpy(dst + off, src, n)] *)
Definition memcpy (off : nat) (src : list byte) (n : nat) : M unit :=
  λ st, if decide (off + n ≤ length (mem st) ∧ n ≤ length src)
        then Some (tt, BufState (take off (mem st) ++ take n src
                                   ++ drop (off + n) (mem st))
                                (wlog st ++ seq off n) (dlog st))
        else None.

(** [strlen(dst)]: defined when a [NUL] is found inside the object. *)
Definition strlen_dst : M nat :=
  λ st, if decide (strlen (mem st) < length (mem st))
        then Some (strlen (mem st), st)
        else None.

Definition print (d : diag) : M unit :=
  λ st, Some (tt, BufState (mem st) (wlog st) (dlog st ++ [d])).

(** A [char*] destination: null, or the start of the object. *)
Inductive ptr := NullPtr | BufPtr.

(** ** mystrcpy *)

Definition mystrcpy (dst : ptr) (dstSize : nat) (src : option (list byte))
  : M unit :=
  match dst with
  | NullPtr => print (ErrPrint "mystrcpy null dst\n" [])
  | BufPtr =>
    if dstSize <? 1 then print (ErrPrint "mystrcpy invalid dst size\n" [])
    else
      store 0 NUL ;>>
      match src with
      | None => print (ErrPrint "mystrcpy null src\n" [])
      | Some s =>
        do srcLen <-
          (let srcLen := strlen s in
           if dstSize <=? srcLen
           then print (ErrPrint "mystrcpy buffer overflow on '%s'\n" [AStr s]) ;>>
                ret (dstSize - 1)
           else ret srcLen);
        memcpy 0 s srcLen ;>>
        store srcLen NUL
      end
  end.

(** ** mystrcat *)

Definition mystrcat (dst : ptr) (dstSize : nat) (src : option (list byte))
  : M unit :=
  match dst with
  | NullPtr => print (ErrPrint "mystrcat null dst\n" [])
  | BufPtr =>
    if dstSize <? 1 then print (ErrPrint "mystrcat invalid dst size\n" [])
    else
      do dstLen <- strlen_dst;
      if dstSize <=? dstLen then print (ErrPrint "mystrcat invalid dst len\n" [])
      else
        match src with
        | None => print (ErrPrint "mystrcat null src\n" [])
        | Some s =>
          let srcLen := strlen s in
          if srcLen <? 1 then ret tt
          else
            let maxLen := (dstSize - 1) - dstLen in
            do srcLen <-
              (if maxLen <? srcLen
               then print (ErrPrint "mystrcat buffer overflow\n" []) ;>>
                    ret maxLen
               else ret srcLen);
            if 0 <? srcLen
            then memcpy dstLen s srcLen ;>>
                 store (dstLen + srcLen) NUL
            else ret tt
        end
  end.


(** ** mysprintf *)

(** What the formatting primitive [vsnprintf] did with a format and its
    arguments.  [VsnOk out]: it produced [out] and returned [length out].
    [VsnFail scribble]: it returned a negative value, having possibly stored
    [scribble] at the start of the destination first. *)
Inductive vsn_outcome :=
  | VsnOk (out : list byte)
  | VsnFail (scribble : list byte).

Definition formatter : Type := list byte → list arg → vsn_outcome.

(** [vsnprintf(dst, size, ...)]: stores at most [size] bytes.  On success
    these are the first [size - 1] bytes of the output and a terminator. *)
Definition vsnprintf (size : nat) (o : vsn_outcome) : M Z :=
  match o with
  | VsnOk out =>
    if size <? 1 then ret (Z.of_nat (length out))
    else
      let k := length out `min` (size - 1) in
      memcpy 0 out k ;>>
      store k NUL ;>>
      ret (Z.of_nat (length out))
  | VsnFail scribble =>
    memcpy 0 scribble (length scribble `min` size) ;>>
    ret (-1)%Z
  end.

Section Formatted.
Variable vformat : formatter.

Definition mysprintf (dst : ptr) (dstSize : nat) (fmt : option (list byte))
  (args : list arg) : M unit :=
  match dst with
  | NullPtr => print (ErrPrint "mysprintf null dst\n" [])
  | BufPtr =>
    if dstSize <? 1 then print (ErrPrint "mysprintf invalid dst size\n" [])
    else
      store 0 NUL ;>>
      match fmt with
      | None => print (ErrPrint "mysprintf null fmt\n" [])
      | Some f =>
        do n <- vsnprintf dstSize (vformat f args);
        if (n <? 0)%Z
        then print (ErrPrint "mysprintf error\n" []) ;>>
             store 0 NUL
        else if dstSize <=? Z.to_nat n
        then print (ErrPrint "mysprintf buffer overflow\n" []) ;>>
             store (dstSize - 1) NUL
        else ret tt
      end
  end.
End Formatted.

(** ** The formatter of the directives the program uses *)

(** Model of the C library's [printf] conversions for the directives that
    occur in this file's format strings: [%s], [%d], [%%] and ordinary
    bytes.  Any other directive, or an argument of the wrong kind, is outside
    the model and is reported as a failure of the primitive. *)
Definition decimal (z : Z) : list byte :=
  bytes (NilZero.string_of_int (Z.to_int z)).

Fixpoint c_render (fmt : list byte) (args : list arg) : option (list byte) :=
  match fmt with
  | [] => Some []
  | b :: rest =>
    if Byte.eqb b NUL then Some []
    else if Byte.eqb b x25 then
      match rest with
      | [] => None
      | d :: rest' =>
        if Byte.eqb d x73 then
          match args with
          | AStr s :: args' => (cstring s ++.) <$> c_render rest' args'
          | _ => None
          end
        else if Byte.eqb d x64 then
          match args with
          | AInt z :: args' => (decimal z ++.) <$> c_render rest' args'
          | _ => None
          end
        else if Byte.eqb d x25 then (x25 ::.) <$> c_render rest' args
        else None
      end
    else (b ::.) <$> c_render rest args
  end.

Definition c_format : formatter :=
  λ fmt args,
    match c_render fmt args with
    | Some out => VsnOk out
    | None => VsnFail []
    end.

(** ** The process lock *)

(** [limits.h] on Linux. *)
Definition PATH_MAX : nat := 4096.

(** [errno.h] on Linux. *)
Definition EAGAIN : Z := 11.
Definition EDEADLK : Z := 35.

Record LockFile := mkLockFile {
  path : list byte;    (* char path[PATH_MAX] *)
  fd : Z
}.

(** The zero-initialised static [g_processLock]. *)
Definition zero_lock : LockFile := mkLockFile (repeat NUL PATH_MAX) 0.

Inductive open_flag := O_RDWR | O_CREAT.
Inductive mode_bit := S_IRUSR | S_IWUSR.

Inductive syscall :=
  | SysMkdir (p : list byte) (mode : Z)
  | SysOpen (p : list byte) (flags : list open_flag) (mode : list mode_bit)
  | SysLockfTest (fd : Z) (len : Z)
  | SysFtruncate (fd : Z) (len : Z)
  | SysWrite (fd : Z) (data : list byte)
  | SysClose (fd : Z)
  | SysUnlink (p : list byte).

Inductive event :=
  | Call (c : syscall)
  | Report (d : diag).

(** What the system answers to one run of [LockProcess]: the value each call
    returns and the [errno] read after it, and the indeterminate initial
    bytes of the local array [pidStr]. *)
Record sysenv := mkSysenv {
  getpid_ret : Z;
  open_ret : Z;
  open_errno : Z;
  lockf_ret : Z;
  lockf_errno : Z;
  ftruncate_ret : Z;
  ftruncate_errno : Z;
  write_ret : Z;
  write_errno : Z;
  pidStr_junk : nat → byte
}.

Record proc := mkProc {
  g_processLock : LockFile;
  trace : list event      (* oldest first *)
}.

Definition P : Type → Type := SM proc.

Definition call (c : syscall) : P unit :=
  λ ps, Some (tt, mkProc (g_processLock ps) (trace ps ++ [Call c])).

Definition report (d : diag) : P unit :=
  λ ps, Some (tt, mkProc (g_processLock ps) (trace ps ++ [Report d])).

Definition get_lock : P LockFile := λ ps, Some (g_processLock ps, ps).

Definition set_fd (v : Z) : P unit :=
  λ ps, Some (tt, mkProc (mkLockFile (path (g_processLock ps)) v) (trace ps)).

(** Run a string helper on [lock->path]. *)
Definition on_path (m : M unit) : P unit :=
  λ ps, match m (fresh (path (g_processLock ps))) with
        | Some (_, st) =>
          Some (tt, mkProc (mkLockFile (mem st) (fd (g_processLock ps)))
                      (trace ps ++ map Report (dlog st)))
        | None => None
        end.

(** Run a string helper on a local array, and hand back its bytes. *)
Definition on_local (init : list byte) (m : M unit) : P (list byte) :=
  λ ps, match m (fresh init) with
        | Some (_, st) =>
          Some (mem st, mkProc (g_processLock ps)
                          (trace ps ++ map Report (dlog st)))
        | None => None
        end.

Definition when (b : bool) (m : P unit) : P unit := if b then m else ret tt.

Definition LockProcess (env : sysenv) (component : list byte) : P bool :=
  let locksDirPath := bytes "/tmp/run" in
  let pid := getpid_ret env in
  call (SysMkdir locksDirPath 0x1ff) ;>>   (* 0777 *)
  on_path (mysprintf c_format BufPtr PATH_MAX (Some (bytes "%s/%s.pid"))
             [AStr locksDirPath; AStr component]) ;>>
  do lock <- get_lock;
  call (SysOpen (cstring (path lock)) [O_RDWR; O_CREAT] [S_IRUSR; S_IWUSR]) ;>>
  let fd := open_ret env in
  if (fd <? 0)%Z then
    let err := open_errno env in
    report (ErrPrint "Failed to open lock file (err %d, %s), exiting.\n"
              [AInt err; AStrerror err]) ;>>
    ret false
  else
    call (SysLockfTest fd 0) ;>>
    let result := lockf_ret env in
    if (result <? 0)%Z then
      let err := lockf_errno env in
      (if (err =? EDEADLK)%Z || (err =? EAGAIN)%Z
       then report (ErrPrint "Failed to acquire lock, exiting.\n" [])
       else report (ErrPrint "Failed to acquire lock (err %d, %s), exiting.\n"
                      [AInt err; AStrerror err])) ;>>
      ret false
    else
      call (SysFtruncate fd 0) ;>>
      let result := ftruncate_ret env in
      when (result <? 0)%Z
        (let err := ftruncate_errno env in
         report (DbgPrint "Failed truncating lock file (err %d, %s).\n"
                   [AInt err; AStrerror err])) ;>>
      do pidStr <- on_local (map (pidStr_junk env) (seq 0 16))
                     (mysprintf c_format BufPtr 16
                        (Some (bytes "%d" ++ [x0a])) [AInt pid]);
      let pidStrLen := Z.of_nat (strlen pidStr) in
      call (SysWrite fd (take (Z.to_nat pidStrLen) pidStr)) ;>>
      let result := write_ret env in
      when (result <? pidStrLen)%Z
        (let err := write_errno env in
         report (DbgPrint "Failed writing lock file (err %d, %s).\n"
                   [AInt err; AStrerror err])) ;>>
      set_fd fd ;>>
      ret true.

Definition UnlockProcess : P unit :=
  do lock <- get_lock;
  call (SysClose (fd lock)) ;>>
  call (SysUnlink (cstring (path lock))).

(** ** What [close] and [unlink] do to the system *)

(** Model of the POSIX calls [UnlockProcess] makes, over the descriptors the
    process has open and the files that exist.  [close] of an open descriptor
    closes it, whoever opened it; of any other value it fails with [EBADF].
    [unlink] of an existing name removes it; of a missing or empty name it
    fails with [ENOENT]. *)
Record os := mkOs {
  open_fds : gset Z;
  files : list (list byte)
}.

#[global] Instance byte_eq_dec : EqDecision byte := Byte.byte_eq_dec.

Definition os_close (d : Z) (o : os) : os :=
  if decide (d ∈ open_fds o)
  then mkOs (open_fds o ∖ {[d]}) (files o)
  else o.

Definition os_unlink (p : list byte) (o : os) : os :=
  if decide (p = [])
  then o
  else mkOs (open_fds o) (filter (λ q, q ≠ p) (files o)).

(** The effect of a trace of such calls; other calls are not interpreted. *)
Fixpoint os_run (t : list event) (o : os) : option os :=
  match t with
  | [] => Some o
  | Report _ :: t' => os_run t' o
  | Call (SysClose d) :: t' => os_run t' (os_close d o)
  | Call (SysUnlink p) :: t' => os_run t' (os_unlink p o)
  | Call _ :: _ => None
  end.

(** ** ParseInt *)

(** [errno.h] on Linux. *)
Definition ERANGE : Z := 34.

Definition isspace (b : byte) : bool :=
  Byte.eqb b x20 || Byte.eqb b x09 || Byte.eqb b x0a
  || Byte.eqb b x0b || Byte.eqb b x0c || Byte.eqb b x0d.

(** The value of a digit or letter, as [strtol] reads it. *)
Definition digit_value (b : byte) : option Z :=
  let n := Z.of_N (Byte.to_N b) in
  if (48 <=? n)%Z && (n <=? 57)%Z then Some (n - 48)%Z
  else if (97 <=? n)%Z && (n <=? 122)%Z then Some (n - 87)%Z
  else if (65 <=? n)%Z && (n <=? 90)%Z then Some (n - 55)%Z
  else None.

Fixpoint skip_spaces (s : list byte) : nat :=
  match s with
  | b :: s' => if isspace b then S (skip_spaces s') else 0
  | [] => 0
  end.

(** Accumulate the longest run of digits below [base]: its value and its
    length. *)
Fixpoint scan_digits (base : Z) (s : list byte) (acc : Z) : Z * nat :=
  match s with
  | b :: s' =>
    match digit_value b with
    | Some d =>
      if (d <? base)%Z
      then let '(v, n) := scan_digits base s' (acc * base + d)%Z in (v, S n)
      else (acc, 0)
    | None => (acc, 0)
    end
  | [] => (acc, 0)
  end.

Definition sign_prefix (s : list byte) : bool * nat :=
  match s with
  | b :: _ =>
    if Byte.eqb b x2d then (true, 1)
    else if Byte.eqb b x2b then (false, 1)
    else (false, 0)
  | [] => (false, 0)
  end.

Definition base_prefix (s : list byte) : Z * nat :=
  match s with
  | b0 :: rest =>
    if Byte.eqb b0 x30 then
      match rest with
      | b1 :: _ =>
        if Byte.eqb b1 x78 || Byte.eqb b1 x58 then (16%Z, 2) else (8%Z, 0)
      | [] => (8%Z, 0)
      end
    else (10%Z, 0)
  | [] => (10%Z, 0)
  end.

Section Strtol.
Variable LONG_MAX : Z.

Definition LONG_MIN : Z := (- LONG_MAX - 1)%Z.

(** Model of the C library's [strtol(nptr, &endptr, 0)] (ISO C 7.22.1.4,
    as glibc implements it): white space, an optional sign, the base taken
    from a [0x]/[0X] or [0] prefix, then the digits.  Returns the value,
    the offset of [endptr] from [nptr], and [errno] (which the caller had
    set to zero).  With no digits nothing is converted and [endptr] is
    [nptr], except that in [0x] not followed by a hexadecimal digit the
    [0] is converted and [endptr] is at the [x].  A value outside [long]
    is clamped and [errno] is [ERANGE]. *)
Definition strtol (nptr : list byte) : Z * nat * Z :=
  let i0 := skip_spaces nptr in
  let '(neg, i1) := sign_prefix (drop i0 nptr) in
  let '(base, i2) := base_prefix (drop (i0 + i1) nptr) in
  let '(v, n) := scan_digits base (drop (i0 + i1 + i2) nptr) 0 in
  if n =? 0 then
    if i2 =? 2 then (0%Z, i0 + i1 + 1, 0%Z) else (0%Z, 0, 0%Z)
  else
    let v := if neg : bool then (- v)%Z else v in
    let e := i0 + i1 + i2 + n in
    if (LONG_MAX <? v)%Z then (LONG_MAX, e, ERANGE)
    else if (v <? LONG_MIN)%Z then (LONG_MIN, e, ERANGE)
    else (v, e, 0%Z).

(** [(int) n] for a [long] [n]: reduction modulo [2^32] into
    [-2^31 .. 2^31 - 1]. *)
Definition int_of_long (n : Z) : Z :=
  ((n + 2 ^ 31) mod 2 ^ 32 - 2 ^ 31)%Z.

(** [valStr] is the bytes of the argument, a terminator understood after
    them; [nP] is what [*nP] held before the call.  Returns the result and
    what [*nP] holds after. *)
Definition ParseInt (valStr : list byte) (nP : Z) : bool * Z :=
  let '(n, endptr, errno) := strtol valStr in
  if (endptr =? 0) || negb (Byte.eqb (nth endptr valStr NUL) NUL)
     || negb (errno =? 0)%Z
  then (false, nP)
  else (true, int_of_long n).
End Strtol.

(** ** Definitions used to state the properties *)

(** The buffer [m] after [pre] and a terminator were stored at its start. *)
Definition put (pre m : list byte) : list byte :=
  pre ++ NUL :: drop (S (length pre)) m.

(** The diagnostics each helper prints on truncation. *)
Definition overflow_note (c : nat) (s : list byte) : list diag :=
  if c <=? strlen s
  then [ErrPrint "mystrcpy buffer overflow on '%s'\n" [AStr s]]
  else [].

Definition cat_note (c : nat) (s m : list byte) : list diag :=
  if c - 1 - strlen m <? strlen s
  then [ErrPrint "mystrcat buffer overflow\n" []]
  else [].

Definition sprintf_note (c : nat) (out : list byte) : list diag :=
  if c <=? length out then [ErrPrint "mysprintf buffer overflow\n" []] else [].

(** A call on the buffer [m] of declared capacity [c] returned; every store
    went to an index below [c]; and either nothing was stored and the buffer
    is as it was, or the buffer now holds a terminated string shorter than
    [c]. *)
Definition safe_outcome (c : nat) (m : list byte)
    (r : option (unit * bufstate)) : Prop :=
  ∃ st', r = Some (tt, st')
    ∧ Forall (λ i, i < c) (wlog st')
    ∧ length (mem st') = length m
    ∧ ((wlog st' = [] ∧ mem st' = m) ∨ terminated_below c (mem st')).

(** The text [LockProcess] formats into [lock->path]. *)
Definition lock_path_text (component : list byte) : list byte :=
  bytes "/tmp/run" ++ x2f :: cstring component ++ bytes ".pid".

(** A buffer of capacity [c] after [mysprintf] wrote [out] into it. *)
Definition fitted (c : nat) (out m : list byte) : list byte :=
  put (take (length out `min` (c - 1)) out) m.

Definition lock_path (component : list byte) (g : LockFile) : list byte :=
  fitted PATH_MAX (lock_path_text component) (path g).

Definition pid_text (env : sysenv) : list byte :=
  decimal (getpid_ret env) ++ [x0a].

Definition pidStr_after (env : sysenv) : list byte :=
  fitted 16 (pid_text env) (map (pidStr_junk env) (seq 0 16)).

(** The events of [LockProcess] up to and including [open]. *)
Definition open_events (component : list byte) (g : LockFile) : list event :=
  Call (SysMkdir (bytes "/tmp/run") 0x1ff)
  :: map Report (sprintf_note PATH_MAX (lock_path_text component))
  ++ [Call (SysOpen (cstring (lock_path component g))
              [O_RDWR; O_CREAT] [S_IRUSR; S_IWUSR])].

Definition open_failure (env : sysenv) : event :=
  Report (ErrPrint "Failed to open lock file (err %d, %s), exiting.\n"
            [AInt (open_errno env); AStrerror (open_errno env)]).

Definition lock_failure (env : sysenv) : event :=
  Report
    (if (lockf_errno env =? EDEADLK)%Z || (lockf_errno env =? EAGAIN)%Z
     then ErrPrint "Failed to acquire lock, exiting.\n" []
     else ErrPrint "Failed to acquire lock (err %d, %s), exiting.\n"
            [AInt (lockf_errno env); AStrerror (lockf_errno env)]).

Definition truncate_report (env : sysenv) : list event :=
  if (ftruncate_ret env <? 0)%Z
  then [Report (DbgPrint "Failed truncating lock file (err %d, %s).\n"
                  [AInt (ftruncate_errno env); AStrerror (ftruncate_errno env)])]
  else [].

Definition write_report (env : sysenv) : list event :=
  if (write_ret env <? Z.of_nat (strlen (pidStr_after env)))%Z
  then [Report (DbgPrint "Failed writing lock file (err %d, %s).\n"
                  [AInt (write_errno env); AStrerror (write_errno env)])]
  else [].

(** The events of [LockProcess] after a successful [lockf]. *)
Definition locked_events (env : sysenv) : list event :=
  Call (SysFtruncate (open_ret env) 0)
  :: truncate_report env
  ++ map Report (sprintf_note 16 (pid_text env))
  ++ Call (SysWrite (open_ret env) (cstring (pidStr_after env)))
  :: write_report env.

Definition is_close (e : event) : Prop :=
  match e with
  | Call (SysClose _) => True
  | _ => False
  end.

Definition is_error_report (e : event) : Prop :=
  match e with
  | Report (ErrPrint _ _) => True
  | _ => False
  end.

(** A run in which the lock is taken, [ftruncate] fails and [write] is
    short. *)
Definition env_truncate_fails : sysenv :=
  mkSysenv 1234 3 0 0 0 (-1) 5 2 28 (λ _, x41).

(** A run in which [open] fails with [EACCES]. *)
Definition env_open_fails : sysenv :=
  mkSysenv 1234 (-1) 13 0 0 0 0 0 0 (λ _, x41).

(** A process with descriptors 0, 1 and 2 open and no lock file. *)
Definition os_std : os := mkOs {[0%Z; 1%Z; 2%Z]} [].

(** The system calls of a trace, in order. *)
Fixpoint calls (t : list event) : list syscall :=
  match t with
  | [] => []
  | Call c :: t' => c :: calls t'
  | Report _ :: t' => calls t'
  end.

(** The path [LockProcess] hands to [open]. *)
Definition opened_path (component : list byte) : list byte :=
  take (PATH_MAX - 1) (lock_path_text component).

Definition open_call (component : list byte) : syscall :=
  SysOpen (opened_path component) [O_RDWR; O_CREAT] [S_IRUSR; S_IWUSR].

(** The value of a decimal numeral read from the left, starting from
    [acc]. *)
Fixpoint uint_value (d : Decimal.uint) (acc : Z) : Z :=
  match d with
  | Decimal.Nil => acc
  | Decimal.D0 l => uint_value l (acc * 10 + 0)
  | Decimal.D1 l => uint_value l (acc * 10 + 1)
  | Decimal.D2 l => uint_value l (acc * 10 + 2)
  | Decimal.D3 l => uint_value l (acc * 10 + 3)
  | Decimal.D4 l => uint_value l (acc * 10 + 4)
  | Decimal.D5 l => uint_value l (acc * 10 + 5)
  | Decimal.D6 l => uint_value l (acc * 10 + 6)
  | Decimal.D7 l => uint_value l (acc * 10 + 7)
  | Decimal.D8 l => uint_value l (acc * 10 + 8)
  | Decimal.D9 l => uint_value l (acc * 10 + 9)
  end.

Definition INT_MIN : Z := (- 2 ^ 31)%Z.
Definition INT_MAX : Z := (2 ^ 31 - 1)%Z.

(** A numeral that starts with a digit from 1 to 9. *)
Definition nonzero_head (d : Decimal.uint) : Prop :=
  match d with
  | Decimal.Nil | Decimal.D0 _ => False
  | _ => True
  end.

(** The bytes of the digits of a numeral. *)
Definition digit_bytes (d : Decimal.uint) : list byte :=
  bytes (NilEmpty.string_of_uint d).

(** * Proofs *)

Example mystrcpy_abc :
  mystrcpy BufPtr 3 (Some (bytes "abcd")) (fresh (bytes "xxxxx")) =
  Some (tt, BufState [x61; x62; x00; x78; x78] [0; 0; 1; 2]
              [ErrPrint "mystrcpy buffer overflow on '%s'\n" [AStr (bytes "abcd")]]).
Proof. reflexivity. Qed.

(** ** Facts about C strings *)

Lemma eqb_NUL_true b : Byte.eqb b NUL = true ↔ b = NUL.
Proof. split; [apply Byte.byte_dec_bl | apply Byte.byte_dec_lb]. Qed.

Lemma eqb_NUL_false b : Byte.eqb b NUL = false ↔ b ≠ NUL.
Proof.
  split; [apply Byte.eqb_false |].
  intros Hne. destruct (Byte.eqb b NUL) eqn:E; [|done].
  by apply eqb_NUL_true in E.
Qed.

Lemma strlen_le s : strlen s ≤ length s.
Proof. induction s as [|b s IH]; simpl; [lia|]. destruct (Byte.eqb b NUL); lia. Qed.

Lemma strlen_lookup s : strlen s < length s → s !! strlen s = Some NUL.
Proof.
  induction s as [|b s IH]; simpl; [lia|].
  destruct (Byte.eqb b NUL) eqn:E; simpl.
  - intros _. f_equal. by apply eqb_NUL_true.
  - intros H. apply IH. lia.
Qed.

Lemma strlen_take_nonul s n : n ≤ strlen s → Forall (λ b, b ≠ NUL) (take n s).
Proof.
  revert n. induction s as [|b s IH]; intros [|n]; simpl; try constructor.
  - destruct (Byte.eqb b NUL) eqn:E; [lia|]. by apply eqb_NUL_false.
  - destruct (Byte.eqb b NUL) eqn:E; [lia|]. apply IH. lia.
Qed.

Lemma strlen_app s t :
  Forall (λ b, b ≠ NUL) s → strlen (s ++ t) = length s + strlen t.
Proof.
  induction 1 as [|b s Hb _ IH]; simpl; [done|].
  apply eqb_NUL_false in Hb. by rewrite Hb, IH.
Qed.

Lemma strlen_nonul s : Forall (λ b, b ≠ NUL) s → strlen s = length s.
Proof.
  intros H. rewrite <- (app_nil_r s) at 1. rewrite strlen_app by done. simpl. lia.
Qed.

Lemma strlen_app_NUL s t :
  Forall (λ b, b ≠ NUL) s → strlen (s ++ NUL :: t) = length s.
Proof. intros H. rewrite strlen_app by done. simpl. lia. Qed.

Lemma cstring_nonul s : Forall (λ b, b ≠ NUL) (cstring s).
Proof. by apply strlen_take_nonul. Qed.

Lemma cstring_length s : length (cstring s) = strlen s.
Proof. unfold cstring. rewrite length_take. pose proof (strlen_le s). lia. Qed.

Lemma cstring_id s : Forall (λ b, b ≠ NUL) s → cstring s = s.
Proof. intros H. unfold cstring. rewrite strlen_nonul by done. apply firstn_all. Qed.

Lemma cstring_app_NUL s t : Forall (λ b, b ≠ NUL) s → cstring (s ++ NUL :: t) = s.
Proof.
  intros H. unfold cstring. rewrite strlen_app_NUL by done.
  by rewrite take_app_length.
Qed.

Lemma take_cstring n s : n ≤ strlen s → take n (cstring s) = take n s.
Proof. intros H. unfold cstring. rewrite take_take. f_equal. lia. Qed.


Lemma put_length pre m : length pre < length m → length (put pre m) = length m.
Proof. intros H. unfold put. rewrite length_app. simpl. rewrite length_drop. lia. Qed.

Lemma put_cstring pre m : Forall (λ b, b ≠ NUL) pre → cstring (put pre m) = pre.
Proof. apply cstring_app_NUL. Qed.

Lemma put_strlen pre m : Forall (λ b, b ≠ NUL) pre → strlen (put pre m) = length pre.
Proof. apply strlen_app_NUL. Qed.

Lemma put_lookup pre m : put pre m !! length pre = Some NUL.
Proof. unfold put. by rewrite list_lookup_middle. Qed.

Lemma strlen_le_nul s i : s !! i = Some NUL → strlen s ≤ i.
Proof.
  revert i. induction s as [|b s IH]; intros [|i]; simpl; try done.
  - intros [= ->]. done.
  - intros H. destruct (Byte.eqb b NUL); [lia|]. apply IH in H. lia.
Qed.

Lemma terminated_below_nul c (m : list byte) i :
  m !! i = Some NUL → i < c → terminated_below c m.
Proof.
  intros Hi Hc. pose proof (strlen_le_nul _ _ Hi) as Hle.
  apply lookup_lt_Some in Hi as Hlt.
  split; [lia | apply strlen_lookup; lia].
Qed.

Lemma put_terminated c pre m : length pre < c → terminated_below c (put pre m).
Proof. intros Hc. eapply terminated_below_nul; [apply put_lookup | done]. Qed.

Lemma cat_as_put d (pre m : list byte) :
  d ≤ length m → take d m ++ put pre (drop d m) = put (take d m ++ pre) m.
Proof.
  intros H. unfold put. rewrite <- app_assoc. do 3 f_equal.
  rewrite drop_drop, length_app, length_take. f_equal. lia.
Qed.

(** Storing [pre] over a buffer whose first byte was cleared, then the
    terminator. *)
Lemma store_put (pre m : list byte) b0 :
  length pre < length m →
  <[length pre:=NUL]> (pre ++ drop (length pre) (<[0:=b0]> m)) = put pre m.
Proof.
  intros H. unfold put.
  rewrite insert_app_r_alt by lia. rewrite Nat.sub_diag.
  f_equal.
  destruct pre as [|p pre]; simpl.
  - destruct m; simpl in *; [lia | done].
  - destruct m as [|x m]; simpl in *; [lia|].
    destruct (lookup_lt_is_Some_2 m (length pre)) as [x0 Hx0]; [lia|].
    by rewrite (drop_S m x0 (length pre) Hx0).
Qed.

Lemma overlay_length (pre m : list byte) :
  length pre ≤ length m → length (pre ++ drop (length pre) m) = length m.
Proof. intros H. rewrite length_app, length_drop. lia. Qed.

(** ** Runs of the string helpers *)

Ltac step_monad :=
  repeat first
    [ progress (unfold bind, ret, print, store, memcpy, strlen_dst; simpl)
    | rewrite decide_True by (simpl; try rewrite length_insert; lia)
    | progress simpl ].


Lemma mystrcpy_run c s st :
  1 ≤ c → c ≤ length (mem st) →
  let k := strlen s `min` (c - 1) in
  mystrcpy BufPtr c (Some s) st =
  Some (tt, BufState (put (take k s) (mem st))
              (wlog st ++ 0 :: seq 0 k ++ [k])
              (dlog st ++ overflow_note c s)).
Proof.
  intros Hc Hm k. unfold mystrcpy, overflow_note.
  destruct (c <? 1) eqn:E1; [apply Nat.ltb_lt in E1; lia|].
  pose proof (strlen_le s) as Hs.
  assert (Hk : length (take k s) = k) by (rewrite length_take; lia).
  assert (Hlen : length (take k s ++ drop k (<[0:=NUL]> (mem st)))
                 = length (mem st)).
  { rewrite <- Hk at 2. rewrite overlay_length; rewrite length_insert; lia. }
  destruct (c <=? strlen s) eqn:E2;
    [apply Nat.leb_le in E2; replace (c - 1) with k by lia
    | apply Nat.leb_gt in E2; replace (strlen s) with k by lia];
    step_monad; try rewrite decide_True by lia;
    do 3 f_equal; rewrite <- ?app_assoc, ?app_nil_r; try done;
    rewrite <- Hk at 1; rewrite <- Hk at 3; apply store_put; lia.
Qed.

Lemma mystrcpy_null_src c st :
  1 ≤ c → c ≤ length (mem st) →
  mystrcpy BufPtr c None st =
  Some (tt, BufState (put [] (mem st)) (wlog st ++ [0])
              (dlog st ++ [ErrPrint "mystrcpy null src\n" []])).
Proof.
  intros Hc Hm. unfold mystrcpy.
  destruct (c <? 1) eqn:E1; [apply Nat.ltb_lt in E1; lia|].
  step_monad. do 3 f_equal. unfold put. simpl.
  destruct (mem st); simpl in *; [lia | done].
Qed.

Lemma cat_put d (pre m : list byte) :
  d + length pre < length m →
  <[d + length pre:=NUL]> (take d m ++ pre ++ drop (d + length pre) m)
  = take d m ++ put pre (drop d m).
Proof.
  intros H. unfold put.
  rewrite insert_app_r_alt by (rewrite length_take; lia).
  rewrite length_take, Nat.min_l by lia.
  replace (d + length pre - d) with (length pre) by lia.
  rewrite insert_app_r_alt by lia. rewrite Nat.sub_diag.
  do 2 f_equal. rewrite drop_drop.
  destruct (lookup_lt_is_Some_2 m (d + length pre)) as [x0 Hx0]; [lia|].
  rewrite (drop_S m x0 _ Hx0). simpl. do 2 f_equal. lia.
Qed.

Lemma put_nil_id d (m : list byte) :
  m !! d = Some NUL → take d m ++ put [] (drop d m) = m.
Proof.
  intros H. unfold put. simpl. rewrite drop_drop.
  rewrite <- (take_drop d m) at 3. f_equal.
  rewrite (drop_S m NUL d H). do 2 f_equal. lia.
Qed.


Lemma mystrcat_run c s st :
  strlen (mem st) < c → c ≤ length (mem st) →
  let d := strlen (mem st) in
  let k := strlen s `min` (c - 1 - d) in
  mystrcat BufPtr c (Some s) st =
  Some (tt, BufState (take d (mem st) ++ put (take k s) (drop d (mem st)))
              (wlog st ++ if k =? 0 then [] else seq d k ++ [d + k])
              (dlog st ++ cat_note c s (mem st))).
Proof.
  intros Hd Hm d k. unfold mystrcat, cat_note.
  assert (Hk : k = strlen s `min` (c - 1 - d)) by done. clearbody k.
  assert (Hdd : strlen (mem st) = d) by done. clearbody d.
  destruct (c <? 1) eqn:E1; [apply Nat.ltb_lt in E1; lia|].
  pose proof (strlen_le s) as Hs.
  assert (Hnul : mem st !! d = Some NUL) by (subst d; apply strlen_lookup; lia).
  unfold bind at 1. unfold strlen_dst. rewrite decide_True by lia.
  rewrite Hdd in *.
  destruct (c <=? d) eqn:E2; [apply Nat.leb_le in E2; lia|].
  destruct st as [m w dl]; simpl in *.
  assert (Hlk : length (take k s) = k) by (rewrite length_take; lia).
  clear Hdd.
  destruct (strlen s <? 1) eqn:E3;
    [apply Nat.ltb_lt in E3 | apply Nat.ltb_ge in E3].
  { assert (k = 0) as -> by lia. simpl.
    destruct (c - 1 - d <? strlen s) eqn:E4; [apply Nat.ltb_lt in E4; lia|].
    unfold ret. rewrite !app_nil_r, take_0, put_nil_id; done. }
  destruct (c - 1 - d <? strlen s) eqn:E4;
    [apply Nat.ltb_lt in E4; replace (c - 1 - d) with k by lia
    | apply Nat.ltb_ge in E4; replace (strlen s) with k by lia].
  - destruct (Nat.eq_dec k 0) as [->|Ek].
    + step_monad. by rewrite take_0, put_nil_id, app_nil_r.
    + assert (E5 : (0 <? k) = true) by (apply Nat.ltb_lt; lia).
      assert (E6 : (k =? 0) = false) by (apply Nat.eqb_neq; lia).
      unfold bind, print, ret, memcpy, store. cbn [mem wlog dlog].
      rewrite E5, E6. cbn [mem wlog dlog].
      rewrite decide_True by lia. cbn [mem wlog dlog].
      rewrite decide_True
        by (rewrite !length_app, !length_take, length_drop; lia).
      do 3 f_equal; [| by rewrite <- app_assoc].
      rewrite <- Hlk at 1. rewrite <- Hlk at 3. apply cat_put. lia.
  - assert (E5 : (0 <? k) = true) by (apply Nat.ltb_lt; lia).
    assert (E6 : (k =? 0) = false) by (apply Nat.eqb_neq; lia).
    unfold bind, ret, memcpy, store. cbn [mem wlog dlog].
    rewrite E5, E6. cbn [mem wlog dlog].
    rewrite decide_True by lia. cbn [mem wlog dlog].
    rewrite decide_True
      by (rewrite !length_app, !length_take, length_drop; lia).
    do 3 f_equal; [| by rewrite <- app_assoc | by rewrite app_nil_r].
    rewrite <- Hlk at 1. rewrite <- Hlk at 3. apply cat_put. lia.
Qed.

Lemma mystrcat_invalid_len c src st :
  1 ≤ c → c ≤ strlen (mem st) → strlen (mem st) < length (mem st) →
  mystrcat BufPtr c src st =
  Some (tt, BufState (mem st) (wlog st)
              (dlog st ++ [ErrPrint "mystrcat invalid dst len\n" []])).
Proof.
  intros Hc Hd Hm. unfold mystrcat.
  destruct (c <? 1) eqn:E1; [apply Nat.ltb_lt in E1; lia|].
  unfold bind, strlen_dst. rewrite decide_True by done.
  destruct (c <=? strlen (mem st)) eqn:E2; [done|].
  apply Nat.leb_gt in E2. lia.
Qed.

Lemma mystrcat_null_src c st :
  strlen (mem st) < c → c ≤ length (mem st) →
  mystrcat BufPtr c None st =
  Some (tt, BufState (mem st) (wlog st)
              (dlog st ++ [ErrPrint "mystrcat null src\n" []])).
Proof.
  intros Hd Hm. unfold mystrcat.
  destruct (c <? 1) eqn:E1; [apply Nat.ltb_lt in E1; lia|].
  unfold bind, strlen_dst. rewrite decide_True by lia.
  destruct (c <=? strlen (mem st)) eqn:E2; [|done].
  apply Nat.leb_le in E2. lia.
Qed.

Lemma put_insert_id (pre m : list byte) :
  <[length pre:=NUL]> (put pre m) = put pre m.
Proof. apply list_insert_id, put_lookup. Qed.

Lemma insert_0_put (l : list byte) : 0 < length l → <[0:=NUL]> l = put [] l.
Proof. destruct l; simpl; [lia | done]. Qed.

Lemma scribble_put (scr m : list byte) b0 :
  0 < length m →
  <[0:=NUL]> (scr ++ drop (length scr) (<[0:=b0]> m))
  = put [] (scr ++ drop (length scr) m).
Proof.
  intros H. destruct scr as [|x scr]; simpl.
  - destruct m; simpl in *; [lia | done].
  - destruct m; simpl in *; [lia | done].
Qed.

Section FormattedRuns.
Variable vformat : formatter.


Lemma mysprintf_run_ok c f args out st :
  1 ≤ c → c ≤ length (mem st) →
  vformat f args = VsnOk out →
  let k := length out `min` (c - 1) in
  mysprintf vformat BufPtr c (Some f) args st =
  Some (tt, BufState (put (take k out) (mem st))
              (wlog st ++ 0 :: seq 0 k
                 ++ k :: (if c <=? length out then [c - 1] else []))
              (dlog st ++ sprintf_note c out)).
Proof.
  intros Hc Hm Hf k. unfold mysprintf, sprintf_note. rewrite Hf.
  assert (Hk : k = length out `min` (c - 1)) by done. clearbody k.
  destruct (c <? 1) eqn:E1; [apply Nat.ltb_lt in E1; lia|].
  assert (Hlk : length (take k out) = k) by (rewrite length_take; lia).
  assert (Hlen : length (take k out ++ drop k (<[0:=NUL]> (mem st)))
                 = length (mem st)).
  { rewrite <- Hlk at 2. rewrite overlay_length; rewrite length_insert; lia. }
  assert (Hput : <[k:=NUL]> (take k out ++ drop k (<[0:=NUL]> (mem st)))
                 = put (take k out) (mem st)).
  { rewrite <- Hlk at 1. rewrite <- Hlk at 3. apply store_put. lia. }
  unfold vsnprintf. rewrite E1, <- Hk.
  unfold bind, ret, store, memcpy, print. cbn [mem wlog dlog].
  rewrite decide_True by lia. cbn [mem wlog dlog].
  rewrite decide_True by (rewrite length_insert; lia).
  cbn [mem wlog dlog Nat.add]. rewrite take_0. cbn [app].
  rewrite decide_True by lia. cbn [mem wlog dlog].
  rewrite Hput.
  destruct (Z.of_nat (length out) <? 0)%Z eqn:E0; [apply Z.ltb_lt in E0; lia|].
  rewrite Nat2Z.id.
  destruct (c <=? length out) eqn:E2;
    [apply Nat.leb_le in E2 | apply Nat.leb_gt in E2]; cbn [mem wlog dlog].
  - rewrite decide_True by (rewrite put_length; lia).
    replace (c - 1) with k by lia.
    do 3 f_equal.
    + rewrite <- Hlk at 1. apply put_insert_id.
    + rewrite <- !app_assoc. done.
  - do 3 f_equal.
    + rewrite <- !app_assoc. done.
    + by rewrite app_nil_r.
Qed.

Lemma mysprintf_run_fail c f args scr st :
  1 ≤ c → c ≤ length (mem st) →
  vformat f args = VsnFail scr →
  let j := length scr `min` c in
  mysprintf vformat BufPtr c (Some f) args st =
  Some (tt, BufState (put [] (take j scr ++ drop j (mem st)))
              (wlog st ++ 0 :: seq 0 j ++ [0])
              (dlog st ++ [ErrPrint "mysprintf error\n" []])).
Proof.
  intros Hc Hm Hf j. unfold mysprintf. rewrite Hf.
  assert (Hj : j = length scr `min` c) by done. clearbody j.
  destruct (c <? 1) eqn:E1; [apply Nat.ltb_lt in E1; lia|].
  assert (Hlj : length (take j scr) = j) by (rewrite length_take; lia).
  assert (Hlen : length (take j scr ++ drop j (<[0:=NUL]> (mem st)))
                 = length (mem st)).
  { rewrite <- Hlj at 2. rewrite overlay_length; rewrite length_insert; lia. }
  unfold vsnprintf. rewrite <- Hj.
  unfold bind, ret, store, memcpy, print. cbn [mem wlog dlog].
  rewrite decide_True by lia. cbn [mem wlog dlog].
  rewrite decide_True by (rewrite length_insert; lia).
  cbn [mem wlog dlog Nat.add]. rewrite take_0. cbn [app].
  change (-1 <? 0)%Z with true. cbn [mem wlog dlog].
  rewrite decide_True by lia. cbn [mem wlog dlog].
  do 3 f_equal.
  - rewrite <- Hlj at 2. rewrite <- Hlj at 4. apply scribble_put. lia.
  - rewrite <- !app_assoc. done.
Qed.

Lemma mysprintf_null_fmt c args st :
  1 ≤ c → c ≤ length (mem st) →
  mysprintf vformat BufPtr c None args st =
  Some (tt, BufState (put [] (mem st)) (wlog st ++ [0])
              (dlog st ++ [ErrPrint "mysprintf null fmt\n" []])).
Proof.
  intros Hc Hm. unfold mysprintf.
  destruct (c <? 1) eqn:E1; [apply Nat.ltb_lt in E1; lia|].
  step_monad. by rewrite insert_0_put by lia.
Qed.
End FormattedRuns.

(** ** The bounded-buffer invariant *)

Lemma Forall_lt_seq c k : k ≤ c → Forall (λ i, i < c) (seq 0 k).
Proof. intros H. apply Forall_seq. intros j Hj. lia. Qed.

Lemma Forall_lt_seq_from c d k : d + k ≤ c → Forall (λ i, i < c) (seq d k).
Proof. intros H. apply Forall_seq. intros j Hj. lia. Qed.

Lemma mystrcpy_safe dst c src m :
  1 ≤ c → c ≤ length m → safe_outcome c m (mystrcpy dst c src (fresh m)).
Proof.
  intros Hc Hm. destruct dst.
  { eexists. split; [reflexivity|]. simpl. auto. }
  destruct src as [s|].
  - rewrite mystrcpy_run by done. eexists. split; [reflexivity|].
    cbn [mem wlog dlog fresh app].
    pose proof (strlen_le s) as Hs.
    assert (Hl : length (take (strlen s `min` (c - 1)) s) = strlen s `min` (c - 1))
      by (rewrite length_take; lia).
    split_and!.
    + constructor; [lia|]. apply Forall_app. split.
      * apply Forall_lt_seq. lia.
      * constructor; [lia | constructor].
    + apply put_length. lia.
    + right. apply put_terminated. lia.
  - rewrite mystrcpy_null_src by done. eexists. split; [reflexivity|].
    cbn [mem wlog dlog fresh app]. split_and!.
    + constructor; [lia | constructor].
    + apply put_length. simpl. lia.
    + right. apply put_terminated. simpl. lia.
Qed.

Lemma mystrcat_safe dst c src m :
  1 ≤ c → c ≤ length m → strlen m < length m →
  safe_outcome c m (mystrcat dst c src (fresh m)).
Proof.
  intros Hc Hm Ht. destruct dst.
  { eexists. split; [reflexivity|]. simpl. auto. }
  destruct (decide (c ≤ strlen m)) as [Hd|Hd].
  { rewrite mystrcat_invalid_len by done.
    eexists. split; [reflexivity|]. simpl. auto. }
  destruct src as [s|].
  - rewrite mystrcat_run by (simpl; lia). eexists. split; [reflexivity|].
    cbn [mem wlog dlog fresh app].
    set (d := strlen m). set (k := strlen s `min` (c - 1 - d)).
    assert (d < c) by (unfold d; lia).
    assert (k ≤ c - 1 - d) by (unfold k; lia).
    pose proof (strlen_le s) as Hs.
    assert (Hl : length (take k s) = k) by (rewrite length_take; lia).
    rewrite cat_as_put by lia.
    assert (Hlp : length (take d m ++ take k s) = d + k)
      by (rewrite length_app, length_take; lia).
    split_and!.
    + destruct (k =? 0); [constructor|].
      apply Forall_app. split.
      * apply Forall_lt_seq_from. lia.
      * constructor; [lia | constructor].
    + apply put_length. lia.
    + right. apply put_terminated. lia.
  - rewrite mystrcat_null_src by (simpl; lia).
    eexists. split; [reflexivity|]. simpl. auto.
Qed.

Lemma mysprintf_safe vformat dst c fmt args m :
  1 ≤ c → c ≤ length m →
  safe_outcome c m (mysprintf vformat dst c fmt args (fresh m)).
Proof.
  intros Hc Hm. destruct dst.
  { eexists. split; [reflexivity|]. simpl. auto. }
  destruct fmt as [f|].
  - destruct (vformat f args) as [out|scr] eqn:Hf.
    + rewrite (mysprintf_run_ok _ _ _ _ out) by done.
      eexists. split; [reflexivity|]. cbn [mem wlog dlog fresh app].
      set (k := length out `min` (c - 1)).
      assert (k ≤ c - 1) by (unfold k; lia).
      assert (Hl : length (take k out) = k) by (rewrite length_take; lia).
      split_and!.
      * constructor; [lia|]. apply Forall_app. split; [apply Forall_lt_seq; lia|].
        constructor; [lia|]. destruct (c <=? length out); repeat constructor. lia.
      * apply put_length. lia.
      * right. apply put_terminated. lia.
    + rewrite (mysprintf_run_fail _ _ _ _ scr) by done.
      eexists. split; [reflexivity|]. cbn [mem wlog dlog fresh app].
      set (j := length scr `min` c).
      assert (j ≤ c) by (unfold j; lia).
      assert (Hl : length (take j scr) = j) by (rewrite length_take; lia).
      assert (Hlen : length (take j scr ++ drop j m) = length m).
      { rewrite <- Hl at 2. apply overlay_length. lia. }
      split_and!.
      * constructor; [lia|]. apply Forall_app. split; [apply Forall_lt_seq; lia|].
        repeat constructor. lia.
      * rewrite put_length; simpl; lia.
      * right. apply put_terminated. simpl. lia.
  - rewrite mysprintf_null_fmt by done.
    eexists. split; [reflexivity|]. cbn [mem wlog dlog fresh app]. split_and!.
    + repeat constructor. lia.
    + apply put_length. simpl. lia.
    + right. apply put_terminated. simpl. lia.
Qed.

(** C1. For a destination of declared capacity [c >= 1] that really has [c]
    bytes, each of [mystrcpy], [mystrcat] and [mysprintf] returns, stores
    only at indices below [c], and either stores nothing and leaves the
    buffer as it was, or leaves in it a terminated string shorter than [c].
    [mystrcat] first measures the destination with [strlen], so for it the
    bytes readable from [dst] must contain a terminator. *)
Theorem bounded_buffer_invariant (vformat : formatter) (dst : ptr) (c : nat)
    (m : list byte) (src fmt : option (list byte)) (args : list arg) :
  1 ≤ c → c ≤ length m →
  safe_outcome c m (mystrcpy dst c src (fresh m))
  ∧ (strlen m < length m → safe_outcome c m (mystrcat dst c src (fresh m)))
  ∧ safe_outcome c m (mysprintf vformat dst c fmt args (fresh m)).
Proof.
  intros Hc Hm. split_and!.
  - by apply mystrcpy_safe.
  - intros Ht. by apply mystrcat_safe.
  - by apply mysprintf_safe.
Qed.

Lemma bounded_buffer_invariant_witness :
  let m := bytes "ab" ++ [NUL; x78; x78; x78] in
  safe_outcome 4 m (mystrcpy BufPtr 4 (Some (bytes "hello")) (fresh m))
  ∧ safe_outcome 4 m (mystrcat BufPtr 4 (Some (bytes "hello")) (fresh m))
  ∧ safe_outcome 4 m
      (mysprintf c_format BufPtr 4 (Some (bytes "%d")) [AInt 12345] (fresh m)).
Proof.
  intros m.
  destruct (bounded_buffer_invariant c_format BufPtr 4 m
              (Some (bytes "hello")) (Some (bytes "%d")) [AInt 12345%Z])
    as (H1 & H2 & H3); [lia | simpl; lia |].
  split_and!; [exact H1 | apply H2; simpl; lia | exact H3].
Defined.

(** ** mystrcpy: copy or truncate *)

(** C2. With a destination of capacity [c >= 1] and a source [s], [mystrcpy]
    leaves exactly the string [s] when [strlen s < c], printing nothing, and
    exactly its first [c - 1] bytes when [strlen s >= c], printing the
    overflow diagnostic. *)
Theorem mystrcpy_copies_or_truncates (c : nat) (s m : list byte) :
  1 ≤ c → c ≤ length m →
  ∃ st', mystrcpy BufPtr c (Some s) (fresh m) = Some (tt, st')
    ∧ (strlen s < c → cstring (mem st') = cstring s ∧ dlog st' = [])
    ∧ (c ≤ strlen s →
       cstring (mem st') = take (c - 1) (cstring s)
       ∧ dlog st' = [ErrPrint "mystrcpy buffer overflow on '%s'\n" [AStr s]]).
Proof.
  intros Hc Hm. rewrite mystrcpy_run by done.
  eexists. split; [reflexivity|]. cbn [mem dlog fresh app]. unfold overflow_note.
  split.
  - intros Hs. rewrite Nat.min_l by lia. split.
    + apply put_cstring, cstring_nonul.
    + destruct (c <=? strlen s) eqn:E; [apply Nat.leb_le in E; lia | done].
  - intros Hs. rewrite Nat.min_r by lia. split.
    + rewrite put_cstring by (apply strlen_take_nonul; lia).
      symmetry. apply take_cstring. lia.
    + destruct (c <=? strlen s) eqn:E; [done | apply Nat.leb_gt in E; lia].
Qed.

Lemma mystrcpy_copies_or_truncates_witness :
  ∃ st', mystrcpy BufPtr 3 (Some (bytes "abcd")) (fresh (bytes "xxxxx"))
         = Some (tt, st')
    ∧ (strlen (bytes "abcd") < 3 →
       cstring (mem st') = cstring (bytes "abcd") ∧ dlog st' = [])
    ∧ (3 ≤ strlen (bytes "abcd") →
       cstring (mem st') = take (3 - 1) (cstring (bytes "abcd"))
       ∧ dlog st' = [ErrPrint "mystrcpy buffer overflow on '%s'\n"
                       [AStr (bytes "abcd")]]).
Proof.
  apply (mystrcpy_copies_or_truncates 3 (bytes "abcd") (bytes "xxxxx"));
    simpl; lia.
Defined.

(** ** mysprintf: output, truncation, failure *)

Lemma take_put (pre m : list byte) : take (S (length pre)) (put pre m) = pre ++ [NUL].
Proof.
  unfold put. rewrite take_app_ge by lia.
  replace (S (length pre) - length pre) with 1 by lia. done.
Qed.

Lemma strlen_app_NUL_any s t : strlen (s ++ NUL :: t) = strlen s.
Proof.
  induction s as [|b s IH]; simpl; [done|].
  destruct (Byte.eqb b NUL); [done | by rewrite IH].
Qed.

Lemma cstring_put_any pre m : cstring (put pre m) = cstring pre.
Proof.
  unfold cstring, put. rewrite strlen_app_NUL_any.
  apply take_app_le, strlen_le.
Qed.

(** C5. With a destination of capacity [c >= 1] and a format, when the
    primitive produces [out]: if [length out <= c - 1] the buffer starts with
    exactly [out] and its terminator, and nothing is printed; if
    [length out >= c] it starts with exactly the first [c - 1] bytes of [out]
    and a terminator, the last store is the one at index [c - 1], and the
    overflow diagnostic is printed.  When the primitive fails, the buffer
    holds the empty string and the error diagnostic is printed. *)
Theorem mysprintf_stores_output (vformat : formatter) (c : nat)
    (f : list byte) (args : list arg) (m : list byte) :
  1 ≤ c → c ≤ length m →
  ∃ st', mysprintf vformat BufPtr c (Some f) args (fresh m) = Some (tt, st')
    ∧ match vformat f args with
      | VsnOk out =>
        (length out ≤ c - 1 →
           take (S (length out)) (mem st') = out ++ [NUL]
           ∧ cstring (mem st') = cstring out
           ∧ dlog st' = [])
        ∧ (c ≤ length out →
           take c (mem st') = take (c - 1) out ++ [NUL]
           ∧ cstring (mem st') = cstring (take (c - 1) out)
           ∧ last (wlog st') = Some (c - 1)
           ∧ dlog st' = [ErrPrint "mysprintf buffer overflow\n" []])
      | VsnFail _ =>
        cstring (mem st') = []
        ∧ dlog st' = [ErrPrint "mysprintf error\n" []]
      end.
Proof.
  intros Hc Hm. destruct (vformat f args) as [out|scr] eqn:Hf.
  - rewrite (mysprintf_run_ok _ _ _ _ out) by done.
    eexists. split; [reflexivity|]. cbn [mem wlog dlog fresh app].
    unfold sprintf_note. split; intros Hl.
    + rewrite Nat.min_l by lia. rewrite firstn_all.
      destruct (c <=? length out) eqn:E; [apply Nat.leb_le in E; lia|].
      split_and!; [apply take_put | apply cstring_put_any | done].
    + rewrite Nat.min_r by lia.
      destruct (c <=? length out) eqn:E; [|apply Nat.leb_gt in E; lia].
      assert (Hk : length (take (c - 1) out) = c - 1)
        by (rewrite length_take; lia).
      split_and!.
      * replace c with (S (length (take (c - 1) out))) at 1 by lia.
        apply take_put.
      * apply cstring_put_any.
      * replace (0 :: seq 0 (c - 1) ++ [c - 1; c - 1])
          with ((0 :: seq 0 (c - 1) ++ [c - 1]) ++ [c - 1])
          by (simpl; by rewrite <- app_assoc).
        apply last_snoc.
      * done.
  - rewrite (mysprintf_run_fail _ _ _ _ scr) by done.
    eexists. split; [reflexivity|]. cbn [mem wlog dlog fresh app].
    split; [apply cstring_put_any | done].
Qed.

Lemma mysprintf_stores_output_witness :
  ∃ st', mysprintf c_format BufPtr 4 (Some (bytes "%s.%d"))
           [AStr (bytes "pid"); AInt 7] (fresh (bytes "xxxxxx"))
         = Some (tt, st')
    ∧ take 4 (mem st') = bytes "pid" ++ [NUL]
    ∧ dlog st' = [ErrPrint "mysprintf buffer overflow\n" []].
Proof.
  destruct (mysprintf_stores_output c_format 4 (bytes "%s.%d")
              [AStr (bytes "pid"); AInt 7%Z] (bytes "xxxxxx"))
    as (st' & Hrun & _ & Hover); [lia | simpl; lia |].
  exists st'. split; [exact Hrun|].
  destruct Hover as (H1 & _ & _ & H2); [simpl; lia|].
  split; [exact H1 | exact H2].
Defined.

(** ** mysprintf: violated preconditions *)

(** C6, as the code has it.  A null destination, or a capacity below 1
    (whether or not a destination exists), makes [mysprintf] print a
    diagnostic and store nothing: the buffer keeps its content.  A null
    format with a destination of capacity [c >= 1] makes it print a
    diagnostic and leave the empty string, storing only at index 0. *)
Theorem mysprintf_precondition_violations (vformat : formatter) (c : nat)
    (fmt : option (list byte)) (args : list arg) (m : list byte) :
  mysprintf vformat NullPtr c fmt args (fresh m)
    = Some (tt, BufState m [] [ErrPrint "mysprintf null dst\n" []])
  ∧ (c < 1 →
     mysprintf vformat BufPtr c fmt args (fresh m)
       = Some (tt, BufState m [] [ErrPrint "mysprintf invalid dst size\n" []]))
  ∧ (1 ≤ c → c ≤ length m →
     ∃ st', mysprintf vformat BufPtr c None args (fresh m) = Some (tt, st')
       ∧ cstring (mem st') = []
       ∧ wlog st' = [0]
       ∧ dlog st' = [ErrPrint "mysprintf null fmt\n" []]).
Proof.
  split_and!.
  - reflexivity.
  - intros Hc. unfold mysprintf.
    destruct (c <? 1) eqn:E; [reflexivity | apply Nat.ltb_ge in E; lia].
  - intros Hc Hm. rewrite mysprintf_null_fmt by done.
    eexists. split; [reflexivity|]. cbn [mem wlog dlog fresh app].
    split_and!; [apply cstring_put_any | done | done].
Qed.

Lemma mysprintf_precondition_violations_witness :
  mysprintf c_format BufPtr 0 (Some (bytes "%d")) [AInt 7]
    (fresh (bytes "abc" ++ [NUL]))
  = Some (tt, BufState (bytes "abc" ++ [NUL]) []
                [ErrPrint "mysprintf invalid dst size\n" []])
  ∧ ∃ st', mysprintf c_format BufPtr 4 None [AInt 7]
             (fresh (bytes "abc" ++ [NUL])) = Some (tt, st')
      ∧ cstring (mem st') = []
      ∧ wlog st' = [0]
      ∧ dlog st' = [ErrPrint "mysprintf null fmt\n" []].
Proof.
  split.
  - apply (mysprintf_precondition_violations c_format 0 (Some (bytes "%d"))
             [AInt 7%Z] (bytes "abc" ++ [NUL])). lia.
  - apply (mysprintf_precondition_violations c_format 4 None
             [AInt 7%Z] (bytes "abc" ++ [NUL])); simpl; lia.
Defined.

(** C6 fails as stated: with a destination holding "abc" and capacity 0,
    [mysprintf] prints the diagnostic and stores nothing, so the destination
    still holds "abc" and not the empty string. *)
Lemma mysprintf_zero_capacity_keeps_content :
  ∃ st', mysprintf c_format BufPtr 0 (Some (bytes "%d")) [AInt 7]
           (fresh (bytes "abc" ++ [NUL])) = Some (tt, st')
    ∧ dlog st' = [ErrPrint "mysprintf invalid dst size\n" []]
    ∧ wlog st' = []
    ∧ cstring (mem st') = bytes "abc"
    ∧ cstring (mem st') ≠ [].
Proof. eexists. split; [reflexivity|]. simpl. split_and!; done. Qed.

(** ** mystrcat after mystrcpy *)

Lemma put_put (a p m : list byte) :
  length p ≤ length a → put a (put p m) = put a m.
Proof.
  intros H. unfold put. do 2 f_equal.
  rewrite drop_app_ge by lia.
  replace (S (length a) - length p) with (S (length a - length p)) by lia.
  simpl. rewrite drop_drop. f_equal. lia.
Qed.

Lemma take_put_prefix (p m : list byte) : take (length p) (put p m) = p.
Proof. unfold put. by rewrite take_app_length. Qed.

Lemma strlen_cstring_app s t : strlen (cstring s ++ t) = strlen s + strlen t.
Proof. rewrite strlen_app by apply cstring_nonul. by rewrite cstring_length. Qed.

Lemma cstring_cstring_app s t : cstring (cstring s ++ t) = cstring s ++ cstring t.
Proof.
  unfold cstring at 1. rewrite strlen_cstring_app, <- (cstring_length s).
  rewrite take_app_add'; done.
Qed.

Lemma mystrcat_empty_run dst c s m :
  strlen s = 0 → strlen m < length m →
  ∃ st', mystrcat dst c (Some s) (fresh m) = Some (tt, st')
    ∧ mem st' = m ∧ wlog st' = [].
Proof.
  intros Hs Hm. destruct dst; [eexists; split; [reflexivity | done]|].
  unfold mystrcat.
  destruct (c <? 1) eqn:E1; [eexists; split; [reflexivity | done]|].
  unfold bind, strlen_dst. cbn [fresh mem]. rewrite decide_True by done.
  destruct (c <=? strlen m); [eexists; split; [reflexivity | done]|].
  rewrite Hs. simpl. eexists; split; [reflexivity | done].
Qed.

Lemma mystrcpy_then_mystrcat c s1 s2 m :
  1 ≤ c → c ≤ length m →
  ∃ st1 st2,
    (mystrcpy BufPtr c (Some s1) ;>> mystrcat BufPtr c (Some s2)) (fresh m)
      = Some (tt, st1)
    ∧ mystrcpy BufPtr c (Some (cstring s1 ++ s2)) (fresh m) = Some (tt, st2)
    ∧ mem st1 = mem st2
    ∧ cstring (mem st1) = take (c - 1) (cstring s1 ++ cstring s2).
Proof.
  intros Hc Hm. unfold bind at 1. rewrite !mystrcpy_run by done.
  cbn [fresh mem wlog dlog].
  set (k1 := strlen s1 `min` (c - 1)).
  pose proof (strlen_le s1) as Hs1. pose proof (strlen_le s2) as Hs2.
  assert (Hp : length (take k1 s1) = k1) by (rewrite length_take; lia).
  assert (Hpn : Forall (λ b, b ≠ NUL) (take k1 s1))
    by (apply strlen_take_nonul; lia).
  assert (Hd : strlen (put (take k1 s1) m) = k1) by (by rewrite put_strlen).
  assert (Hlen : length (put (take k1 s1) m) = length m)
    by (apply put_length; lia).
  rewrite mystrcat_run by (cbn [mem]; lia).
  cbn [mem wlog dlog]. rewrite Hd.
  set (k2 := strlen s2 `min` (c - 1 - k1)).
  eexists _, _. split; [reflexivity|]. split; [reflexivity|].
  cbn [mem].
  assert (Htk : take k1 (put (take k1 s1) m) = take k1 s1).
  { rewrite <- Hp at 1. apply take_put_prefix. }
  rewrite cat_as_put by lia.
  rewrite Htk.
  rewrite put_put by (rewrite length_app; lia).
  rewrite strlen_cstring_app.
  assert (Heq : take k1 s1 ++ take k2 s2
                = take ((strlen s1 + strlen s2) `min` (c - 1)) (cstring s1 ++ s2)).
  { destruct (decide (strlen s1 ≤ c - 1)) as [Hle|Hgt].
    - replace k1 with (strlen s1) by lia.
      replace ((strlen s1 + strlen s2) `min` (c - 1)) with (strlen s1 + k2) by lia.
      fold (cstring s1).
      rewrite take_app_ge by (rewrite cstring_length; lia).
      rewrite cstring_length. do 2 f_equal. lia.
    - replace k2 with 0 by lia. replace k1 with (c - 1) by lia.
      replace ((strlen s1 + strlen s2) `min` (c - 1)) with (c - 1) by lia.
      rewrite take_0, app_nil_r, take_app_le by (rewrite cstring_length; lia).
      symmetry. apply take_cstring. lia. }
  rewrite Heq. split; [done|].
  rewrite put_cstring
    by (apply strlen_take_nonul; rewrite strlen_cstring_app; lia).
  rewrite <- cstring_cstring_app. unfold cstring at 2.
  rewrite strlen_cstring_app, take_take. f_equal. lia.
Qed.

Lemma mystrcat_empty_unchanged dst c s m st' :
  strlen s = 0 →
  mystrcat dst c (Some s) (fresh m) = Some (tt, st') →
  mem st' = m ∧ wlog st' = [].
Proof.
  intros Hs. destruct dst; [by intros [= <-]|].
  unfold mystrcat.
  destruct (c <? 1) eqn:E1; [by intros [= <-]|].
  unfold bind, strlen_dst. cbn [fresh mem]. case_decide; [|done].
  destruct (c <=? strlen m); [by intros [= <-]|].
  rewrite Hs. simpl. by intros [= <-].
Qed.

(** C7. Appending a source of length 0 with [mystrcat] stores nothing and
    leaves the destination as it was (the call returns whenever the
    destination holds a terminator).  And for a buffer of capacity [c],
    [mystrcpy] of [s1] followed by [mystrcat] of [s2] leaves the same bytes
    in the buffer as one [mystrcpy] of the concatenation of the two strings;
    with a destination and [c >= 1] that is the concatenation cut to
    [c - 1] bytes. *)
Theorem mystrcat_associates_with_mystrcpy :
  (∀ dst c s m,
     strlen s = 0 →
     (∀ st', mystrcat dst c (Some s) (fresh m) = Some (tt, st') →
             mem st' = m ∧ wlog st' = [])
     ∧ (strlen m < length m →
        ∃ st', mystrcat dst c (Some s) (fresh m) = Some (tt, st')))
  ∧ (∀ dst c s1 s2 m,
       c ≤ length m →
       ∃ st1 st2,
         (mystrcpy dst c (Some s1) ;>> mystrcat dst c (Some s2)) (fresh m)
           = Some (tt, st1)
         ∧ mystrcpy dst c (Some (cstring s1 ++ s2)) (fresh m) = Some (tt, st2)
         ∧ mem st1 = mem st2
         ∧ (dst = BufPtr → 1 ≤ c →
            cstring (mem st1) = take (c - 1) (cstring s1 ++ cstring s2))).
Proof.
  split.
  - intros dst c s m Hs. split.
    + intros st'. by apply mystrcat_empty_unchanged.
    + intros Hm. destruct (mystrcat_empty_run dst c s m Hs Hm) as (st' & H & _).
      by exists st'.
  - intros dst c s1 s2 m Hm. destruct dst.
    { eexists _, _. split_and!; [reflexivity | reflexivity | done | done]. }
    destruct (decide (1 ≤ c)) as [Hc|Hc].
    + destruct (mystrcpy_then_mystrcat c s1 s2 m Hc Hm)
        as (st1 & st2 & H1 & H2 & H3 & H4).
      exists st1, st2. split_and!; try done.
    + assert (c = 0) as -> by lia.
      eexists _, _. split_and!; [reflexivity | reflexivity | done | lia].
Qed.

Lemma mystrcat_associates_with_mystrcpy_witness :
  let m := bytes "ab" ++ [NUL; x78; x78; x78] in
  (∃ st', mystrcat BufPtr 6 (Some []) (fresh m) = Some (tt, st')
          ∧ mem st' = m ∧ wlog st' = [])
  ∧ (∃ st1 st2,
       (mystrcpy BufPtr 6 (Some (bytes "log")) ;>>
        mystrcat BufPtr 6 (Some (bytes "daemon"))) (fresh m) = Some (tt, st1)
       ∧ mystrcpy BufPtr 6 (Some (cstring (bytes "log") ++ bytes "daemon"))
           (fresh m) = Some (tt, st2)
       ∧ mem st1 = mem st2
       ∧ cstring (mem st1) = bytes "logda").
Proof.
  intros m. destruct mystrcat_associates_with_mystrcpy as [Hempty Hcat]. split.
  - destruct (Hempty BufPtr 6 [] m eq_refl) as [Hsame Hret].
    destruct Hret as [st' Hst']; [simpl; lia|].
    exists st'. split; [exact Hst' | exact (Hsame st' Hst')].
  - destruct (Hcat BufPtr 6 (bytes "log") (bytes "daemon") m)
      as (st1 & st2 & H1 & H2 & H3 & H4); [simpl; lia|].
    exists st1, st2. split_and!; [exact H1 | exact H2 | exact H3 |].
    rewrite H4 by (done || lia). reflexivity.
Defined.

(** ** LockProcess *)

Lemma render_lock_path component :
  c_format (bytes "%s/%s.pid") [AStr (bytes "/tmp/run"); AStr component]
  = VsnOk (lock_path_text component).
Proof. reflexivity. Qed.

Lemma render_pid pid :
  c_format (bytes "%d" ++ [x0a]) [AInt pid] = VsnOk (decimal pid ++ [x0a]).
Proof. reflexivity. Qed.

Lemma PATH_MAX_pos : 1 ≤ PATH_MAX.
Proof. unfold PATH_MAX. lia. Qed.

#[local] Opaque PATH_MAX.

Lemma format_lock_path component g t :
  length (path g) = PATH_MAX →
  on_path (mysprintf c_format BufPtr PATH_MAX (Some (bytes "%s/%s.pid"))
             [AStr (bytes "/tmp/run"); AStr component]) (mkProc g t)
  = Some (tt, mkProc (mkLockFile (lock_path component g) (fd g))
                (t ++ map Report (sprintf_note PATH_MAX (lock_path_text component)))).
Proof.
  intros Hg. unfold on_path. cbn [g_processLock trace].
  rewrite (mysprintf_run_ok c_format PATH_MAX _ _ (lock_path_text component));
    [reflexivity | apply PATH_MAX_pos | cbn [fresh mem]; lia
    | apply render_lock_path].
Qed.

Lemma format_pid env ps :
  on_local (map (pidStr_junk env) (seq 0 16))
    (mysprintf c_format BufPtr 16 (Some (bytes "%d" ++ [x0a]))
       [AInt (getpid_ret env)]) ps
  = Some (pidStr_after env,
          mkProc (g_processLock ps)
            (trace ps ++ map Report (sprintf_note 16 (pid_text env)))).
Proof.
  unfold on_local.
  rewrite (mysprintf_run_ok c_format 16 _ _ (pid_text env));
    [reflexivity | lia | cbn [fresh mem]; rewrite length_map, length_seq; lia
    | apply render_pid].
Qed.

Ltac norm_app := repeat (progress (rewrite <- ?app_assoc; cbn [app])).

Ltac run_to_open Hg :=
  unfold LockProcess;
  unfold bind at 1; unfold call at 1; cbn [g_processLock trace];
  unfold bind at 1; rewrite format_lock_path by exact Hg;
  unfold bind at 1; unfold get_lock at 1; cbn [g_processLock trace path];
  unfold bind at 1; unfold call at 1; cbn [g_processLock trace path].

Lemma LockProcess_open_fails env component g t :
  length (path g) = PATH_MAX →
  (open_ret env < 0)%Z →
  LockProcess env component (mkProc g t) =
  Some (false, mkProc (mkLockFile (lock_path component g) (fd g))
                 (t ++ open_events component g ++ [open_failure env])).
Proof.
  intros Hg Ho. run_to_open Hg.
  apply Z.ltb_lt in Ho. rewrite Ho.
  unfold bind, report, ret. cbn [g_processLock trace].
  unfold open_events, open_failure. do 3 f_equal.
  norm_app. reflexivity.
Qed.

Lemma LockProcess_lock_fails env component g t :
  length (path g) = PATH_MAX →
  (0 ≤ open_ret env)%Z → (lockf_ret env < 0)%Z →
  LockProcess env component (mkProc g t) =
  Some (false, mkProc (mkLockFile (lock_path component g) (fd g))
                 (t ++ open_events component g
                    ++ [Call (SysLockfTest (open_ret env) 0); lock_failure env])).
Proof.
  intros Hg Ho Hl. run_to_open Hg.
  apply Z.ltb_ge in Ho. rewrite Ho.
  unfold bind at 1. unfold call at 1. cbn [g_processLock trace].
  apply Z.ltb_lt in Hl. rewrite Hl.
  unfold open_events, lock_failure.
  destruct ((lockf_errno env =? EDEADLK)%Z || (lockf_errno env =? EAGAIN)%Z);
    unfold bind, report, ret; cbn [g_processLock trace]; do 3 f_equal;
    norm_app; reflexivity.
Qed.

Lemma LockProcess_locked env component g t :
  length (path g) = PATH_MAX →
  (0 ≤ open_ret env)%Z → (0 ≤ lockf_ret env)%Z →
  LockProcess env component (mkProc g t) =
  Some (true, mkProc (mkLockFile (lock_path component g) (open_ret env))
                (t ++ open_events component g
                   ++ Call (SysLockfTest (open_ret env) 0) :: locked_events env)).
Proof.
  intros Hg Ho Hl. run_to_open Hg.
  apply Z.ltb_ge in Ho. rewrite Ho.
  unfold bind at 1. unfold call at 1. cbn [g_processLock trace].
  apply Z.ltb_ge in Hl. rewrite Hl.
  unfold bind at 1. unfold call at 1. cbn [g_processLock trace].
  unfold bind at 1.
  assert (Hwhen : ∀ ps,
    when (ftruncate_ret env <? 0)%Z
      (report (DbgPrint "Failed truncating lock file (err %d, %s).\n"
                 [AInt (ftruncate_errno env); AStrerror (ftruncate_errno env)])) ps
    = Some (tt, mkProc (g_processLock ps) (trace ps ++ truncate_report env))).
  { intros [g0 t0]. unfold when, truncate_report, report, ret.
    destruct (ftruncate_ret env <? 0)%Z; cbn [g_processLock trace];
      [done | by rewrite app_nil_r]. }
  rewrite Hwhen. cbn [g_processLock trace].
  unfold bind at 1. rewrite format_pid. cbn [g_processLock trace].
  rewrite Nat2Z.id.
  unfold bind at 1. unfold call at 1. cbn [g_processLock trace].
  unfold bind at 1.
  assert (Hwhen2 : ∀ ps,
    when (write_ret env <? Z.of_nat (strlen (pidStr_after env)))%Z
      (report (DbgPrint "Failed writing lock file (err %d, %s).\n"
                 [AInt (write_errno env); AStrerror (write_errno env)])) ps
    = Some (tt, mkProc (g_processLock ps) (trace ps ++ write_report env))).
  { intros [g0 t0]. unfold when, write_report, report, ret.
    destruct (write_ret env <? _)%Z; cbn [g_processLock trace];
      [done | by rewrite app_nil_r]. }
  rewrite Hwhen2. cbn [g_processLock trace].
  unfold bind, set_fd, ret. cbn [g_processLock trace path].
  unfold open_events, locked_events. do 3 f_equal.
  norm_app. reflexivity.
Qed.

Lemma not_close_open_events component g :
  Forall (λ e, ¬ is_close e) (open_events component g).
Proof.
  unfold open_events. constructor; [simpl; tauto|].
  apply Forall_app. split.
  - apply Forall_fmap, Forall_true. intros d. simpl. tauto.
  - repeat constructor. simpl. tauto.
Qed.

Lemma not_close_locked_events env :
  Forall (λ e, ¬ is_close e) (locked_events env).
Proof.
  unfold locked_events, truncate_report, write_report.
  constructor; [simpl; tauto|].
  apply Forall_app. split.
  { destruct (ftruncate_ret env <? 0)%Z; repeat constructor. simpl. tauto. }
  apply Forall_app. split.
  { apply Forall_fmap, Forall_true. intros d. simpl. tauto. }
  constructor; [simpl; tauto|].
  destruct (write_ret env <? _)%Z; repeat constructor. simpl. tauto.
Qed.

(** C3. [LockProcess] returns false exactly when [open] fails, or [open]
    succeeds and the [lockf] attempt fails.  No run of it closes a
    descriptor, so after a failed [lockf] the opened descriptor stays open.
    Once the lock is held it returns true whatever [ftruncate] and [write]
    return, and a failure of either adds one debug diagnostic, never an
    error diagnostic, to the events that follow the lock. *)
Theorem LockProcess_fails_exactly_on_open_or_lock (env : sysenv)
    (component : list byte) (g : LockFile) (t : list event) :
  length (path g) = PATH_MAX →
  ∃ r ps new,
    LockProcess env component (mkProc g t) = Some (r, ps)
    ∧ trace ps = t ++ new
    ∧ (r = false ↔
       (open_ret env < 0 ∨ (0 ≤ open_ret env ∧ lockf_ret env < 0))%Z)
    ∧ Forall (λ e, ¬ is_close e) new
    ∧ ((0 ≤ open_ret env)%Z → (lockf_ret env < 0)%Z →
       Call (SysLockfTest (open_ret env) 0) ∈ new)
    ∧ ((0 ≤ open_ret env)%Z → (0 ≤ lockf_ret env)%Z →
       r = true ∧ ∃ pre, new = pre ++ locked_events env)
    ∧ Forall (λ e, ¬ is_error_report e) (truncate_report env ++ write_report env)
    ∧ ((ftruncate_ret env < 0)%Z →
       truncate_report env =
       [Report (DbgPrint "Failed truncating lock file (err %d, %s).\n"
                  [AInt (ftruncate_errno env); AStrerror (ftruncate_errno env)])])
    ∧ ((write_ret env < Z.of_nat (strlen (pidStr_after env)))%Z →
       write_report env =
       [Report (DbgPrint "Failed writing lock file (err %d, %s).\n"
                  [AInt (write_errno env); AStrerror (write_errno env)])]).
Proof.
  intros Hg.
  assert (Htr : (ftruncate_ret env < 0)%Z →
       truncate_report env =
       [Report (DbgPrint "Failed truncating lock file (err %d, %s).\n"
                  [AInt (ftruncate_errno env); AStrerror (ftruncate_errno env)])]).
  { intros H. unfold truncate_report. apply Z.ltb_lt in H. by rewrite H. }
  assert (Hwr : (write_ret env < Z.of_nat (strlen (pidStr_after env)))%Z →
       write_report env =
       [Report (DbgPrint "Failed writing lock file (err %d, %s).\n"
                  [AInt (write_errno env); AStrerror (write_errno env)])]).
  { intros H. unfold write_report. apply Z.ltb_lt in H. by rewrite H. }
  assert (Hdbg : Forall (λ e, ¬ is_error_report e)
                   (truncate_report env ++ write_report env)).
  { unfold truncate_report, write_report. apply Forall_app. split.
    - destruct (ftruncate_ret env <? 0)%Z; repeat constructor. simpl. tauto.
    - destruct (write_ret env <? _)%Z; repeat constructor. simpl. tauto. }
  destruct (Z.lt_ge_cases (open_ret env) 0) as [Ho|Ho].
  { rewrite LockProcess_open_fails by done.
    eexists _, _, _. split; [reflexivity|]. cbn [trace].
    split_and!; [reflexivity | | | lia | lia | done | done | done].
    - split; [auto | done].
    - apply Forall_app. split; [apply not_close_open_events|].
      repeat constructor. simpl. tauto. }
  destruct (Z.lt_ge_cases (lockf_ret env) 0) as [Hl|Hl].
  { rewrite LockProcess_lock_fails by done.
    eexists _, _, _. split; [reflexivity|]. cbn [trace].
    split_and!; [reflexivity | | | | lia | done | done | done].
    - split; [auto | done].
    - apply Forall_app. split; [apply not_close_open_events|].
      unfold lock_failure. repeat constructor; simpl; tauto.
    - intros _ _. apply elem_of_app. right. apply list_elem_of_here. }
  rewrite LockProcess_locked by done.
  eexists _, _, _. split; [reflexivity|]. cbn [trace].
  split_and!; [reflexivity | | | lia | | done | done | done].
  - split; [done | lia].
  - apply Forall_app. split; [apply not_close_open_events|].
    constructor; [simpl; tauto | apply not_close_locked_events].
  - intros _ _. split; [done|].
    exists (open_events component g ++ [Call (SysLockfTest (open_ret env) 0)]).
    by rewrite <- app_assoc.
Qed.

Lemma LockProcess_fails_exactly_on_open_or_lock_witness :
  length (path zero_lock) = PATH_MAX
  ∧ ∃ ps new,
      LockProcess env_truncate_fails (bytes "logd") (mkProc zero_lock [])
        = Some (true, ps)
      ∧ trace ps = new
      ∧ Forall (λ e, ¬ is_close e) new
      ∧ ∃ pre, new = pre ++ locked_events env_truncate_fails.
Proof.
  assert (Hlen : length (path zero_lock) = PATH_MAX) by (vm_compute; reflexivity).
  split; [exact Hlen|].
  destruct (LockProcess_fails_exactly_on_open_or_lock env_truncate_fails
              (bytes "logd") zero_lock [] Hlen)
    as (r & ps & new & Hrun & Htrace & _ & Hclose & _ & Hlocked & _).
  destruct Hlocked as [-> Hpre]; [simpl; lia | simpl; lia |].
  exists ps, new. split_and!; [exact Hrun | exact Htrace | exact Hclose | exact Hpre].
Defined.

(** ** The fields of the lock handle *)

Lemma take_min_length {A} (l : list A) n : take (length l `min` n) l = take n l.
Proof.
  destruct (decide (length l ≤ n)).
  - rewrite Nat.min_l, firstn_all, take_ge by lia. done.
  - f_equal. lia.
Qed.

Lemma lock_path_text_nonul component :
  Forall (λ b, b ≠ NUL) (lock_path_text component).
Proof.
  unfold lock_path_text. apply Forall_app. split.
  { repeat constructor; discriminate. }
  constructor; [discriminate|]. apply Forall_app. split.
  - apply cstring_nonul.
  - repeat constructor; discriminate.
Qed.

Lemma lock_path_cstring component g :
  cstring (lock_path component g) = take (PATH_MAX - 1) (lock_path_text component).
Proof.
  unfold lock_path, fitted. rewrite take_min_length.
  apply put_cstring, Forall_take, lock_path_text_nonul.
Qed.

(** C8, as the code has it.  A failing [LockProcess] leaves the descriptor
    field of [g_processLock] unchanged, and only a successful one records the
    opened descriptor there.  The path field is written by every call,
    failing or not: before [open] is attempted it holds the lock file's path,
    cut to [PATH_MAX - 1] bytes. *)
Theorem LockProcess_handle_fields (env : sysenv) (component : list byte)
    (g : LockFile) (t : list event) :
  length (path g) = PATH_MAX →
  ∃ r ps,
    LockProcess env component (mkProc g t) = Some (r, ps)
    ∧ (r = false → fd (g_processLock ps) = fd g)
    ∧ (r = true → fd (g_processLock ps) = open_ret env)
    ∧ path (g_processLock ps) = lock_path component g
    ∧ cstring (path (g_processLock ps))
      = take (PATH_MAX - 1) (lock_path_text component).
Proof.
  intros Hg.
  destruct (Z.lt_ge_cases (open_ret env) 0) as [Ho|Ho];
    [rewrite LockProcess_open_fails by done|
     destruct (Z.lt_ge_cases (lockf_ret env) 0) as [Hl|Hl];
     [rewrite LockProcess_lock_fails by done
     |rewrite LockProcess_locked by done]];
    eexists _, _; (split; [reflexivity|]); cbn [g_processLock path fd];
    split_and!; try done; apply lock_path_cstring.
Qed.

Lemma LockProcess_handle_fields_witness :
  length (path zero_lock) = PATH_MAX
  ∧ ∃ ps,
      LockProcess env_open_fails (bytes "logd") (mkProc zero_lock [])
        = Some (false, ps)
      ∧ fd (g_processLock ps) = 0%Z
      ∧ cstring (path (g_processLock ps)) = bytes "/tmp/run/logd.pid".
Proof.
  assert (Hlen : length (path zero_lock) = PATH_MAX) by (vm_compute; reflexivity).
  split; [exact Hlen|].
  destruct (LockProcess_handle_fields env_open_fails (bytes "logd") zero_lock []
              Hlen) as (r & ps & Hrun & Hfd & _ & _ & Hpath).
  assert (Hr : r = false).
  { vm_compute in Hrun. injection Hrun as Hr _. symmetry. exact Hr. }
  subst r. exists ps. split_and!; [exact Hrun | exact (Hfd eq_refl) |].
  rewrite Hpath. vm_compute. reflexivity.
Defined.

(** C8 fails as stated: starting from the zero-valued handle, a call in
    which [open] fails returns false and has changed the path field, which
    now holds "/tmp/run/logd.pid". *)
Lemma LockProcess_failure_rewrites_path :
  ∃ ps, LockProcess env_open_fails (bytes "logd") (mkProc zero_lock [])
        = Some (false, ps)
    ∧ cstring (path zero_lock) = []
    ∧ cstring (path (g_processLock ps)) = bytes "/tmp/run/logd.pid"
    ∧ path (g_processLock ps) ≠ path zero_lock.
Proof.
  eexists. split; [vm_compute; reflexivity|].
  split; [vm_compute; reflexivity|].
  split; [vm_compute; reflexivity|].
  intros H. apply (f_equal (λ l, l !! 0)) in H. vm_compute in H. discriminate.
Qed.

(** ** UnlockProcess on a handle that was never filled *)

Lemma zero_lock_cstring : cstring (path zero_lock) = [].
Proof. vm_compute. reflexivity. Qed.

Lemma UnlockProcess_zero_run t :
  UnlockProcess (mkProc zero_lock t)
  = Some (tt, mkProc zero_lock (t ++ [Call (SysClose 0); Call (SysUnlink [])])).
Proof.
  unfold UnlockProcess, bind, get_lock, call. cbn [g_processLock trace].
  rewrite zero_lock_cstring. cbn [fd zero_lock].
  by rewrite <- app_assoc.
Qed.

Lemma close_unlink_effect (o : os) :
  os_run [Call (SysClose 0); Call (SysUnlink [])] o
  = Some (mkOs (open_fds o ∖ {[0%Z]}) (files o)).
Proof.
  cbn [os_run]. unfold os_unlink, os_close. rewrite decide_True by done.
  f_equal. case_decide; [done|].
  destruct o as [fds fs]. cbn [open_fds files] in *. f_equal.
  apply set_eq. intros x. rewrite elem_of_difference, elem_of_singleton.
  split; [|tauto]. intros Hx. split; [done|]. by intros ->.
Qed.

(** C9, as the code has it.  On the zero-valued handle [UnlockProcess]
    returns, leaves the handle as it was, and makes exactly the calls
    [close(0)] and [unlink("")], ignoring what they return.  The [unlink]
    removes no file; the [close] closes descriptor 0 when the process has it
    open, and no other descriptor changes. *)
Theorem UnlockProcess_on_zero_handle (t : list event) (o : os) :
  ∃ ps o',
    UnlockProcess (mkProc zero_lock t) = Some (tt, ps)
    ∧ g_processLock ps = zero_lock
    ∧ trace ps = t ++ [Call (SysClose 0); Call (SysUnlink [])]
    ∧ os_run [Call (SysClose 0); Call (SysUnlink [])] o = Some o'
    ∧ files o' = files o
    ∧ open_fds o' = open_fds o ∖ {[0%Z]}.
Proof.
  eexists _, _. split; [apply UnlockProcess_zero_run|].
  cbn [g_processLock trace]. split; [reflexivity|]. split; [reflexivity|].
  split; [apply close_unlink_effect|]. done.
Qed.

(** C9 fails as stated: in a process whose descriptors 0, 1 and 2 are open
    and which never called [LockProcess], [UnlockProcess] closes descriptor
    0, which this code did not open. *)
Lemma UnlockProcess_closes_descriptor_zero :
  ∃ ps o',
    UnlockProcess (mkProc zero_lock []) = Some (tt, ps)
    ∧ os_run (trace ps) os_std = Some o'
    ∧ (0%Z ∈ open_fds os_std)
    ∧ (0%Z ∉ open_fds o')
    ∧ o' ≠ os_std.
Proof.
  eexists _, _. split; [apply UnlockProcess_zero_run|].
  cbn [trace app]. split; [apply close_unlink_effect|].
  cbn [open_fds os_std].
  assert (Hin : (0%Z ∈ ({[0%Z; 1%Z; 2%Z]} : gset Z))).
  { apply elem_of_union_l, elem_of_union_l, elem_of_singleton. done. }
  assert (Hout : (0%Z ∉ ({[0%Z; 1%Z; 2%Z]} : gset Z) ∖ {[0%Z]})).
  { rewrite elem_of_difference, elem_of_singleton. tauto. }
  split_and!; [exact Hin | exact Hout |].
  intros Heq. apply (f_equal open_fds) in Heq. cbn [open_fds os_std] in Heq.
  rewrite Heq in Hout. exact (Hout Hin).
Qed.

(** ** ParseInt *)

Lemma isspace_nonul b : isspace b = true → b ≠ NUL.
Proof. intros H ->. discriminate. Qed.

Lemma digit_value_nonul b d : digit_value b = Some d → b ≠ NUL.
Proof. intros H ->. discriminate. Qed.

Lemma strlen_cons_nonul b s : b ≠ NUL → strlen (b :: s) = S (strlen s).
Proof. intros H. simpl. apply eqb_NUL_false in H. by rewrite H. Qed.

Lemma strlen_drop n s : n ≤ strlen s → strlen (drop n s) = strlen s - n.
Proof.
  revert s. induction n as [|n IH]; intros s Hn; [rewrite drop_0; lia|].
  destruct s as [|b s]; simpl in *; [lia|].
  destruct (Byte.eqb b NUL); [lia|]. apply IH. lia.
Qed.

Lemma skip_spaces_le s : skip_spaces s ≤ strlen s.
Proof.
  induction s as [|b s IH]; simpl; [lia|].
  destruct (isspace b) eqn:E; [|lia].
  apply isspace_nonul, eqb_NUL_false in E. rewrite E. lia.
Qed.

Lemma sign_prefix_le s : (sign_prefix s).2 ≤ strlen s.
Proof.
  destruct s as [|b s]; simpl; [lia|].
  destruct (Byte.eqb b x2d) eqn:E1.
  { apply Byte.byte_dec_bl in E1 as ->. simpl. lia. }
  destruct (Byte.eqb b x2b) eqn:E2; simpl; [|lia].
  apply Byte.byte_dec_bl in E2 as ->. simpl. lia.
Qed.

Lemma base_prefix_le s : (base_prefix s).2 ≤ strlen s.
Proof.
  destruct s as [|b0 s]; simpl; [lia|].
  destruct (Byte.eqb b0 x30) eqn:E0; simpl; [|lia].
  apply Byte.byte_dec_bl in E0 as ->.
  destruct s as [|b1 s]; simpl; [lia|].
  destruct (Byte.eqb b1 x78) eqn:E1.
  { apply Byte.byte_dec_bl in E1 as ->. simpl. lia. }
  destruct (Byte.eqb b1 x58) eqn:E2; simpl; [|lia].
  apply Byte.byte_dec_bl in E2 as ->. simpl. lia.
Qed.

Lemma scan_digits_le base s acc : (scan_digits base s acc).2 ≤ strlen s.
Proof.
  revert acc. induction s as [|b s IH]; intros acc; simpl; [lia|].
  destruct (digit_value b) as [d|] eqn:E; simpl; [|lia].
  destruct (d <? base)%Z; simpl; [|lia].
  apply digit_value_nonul, eqb_NUL_false in E. rewrite E.
  specialize (IH (acc * base + d)%Z).
  destruct (scan_digits base s (acc * base + d)) as [v n]. simpl in *. lia.
Qed.

Lemma strtol_end_le LONG_MAX s : (strtol LONG_MAX s).1.2 ≤ strlen s.
Proof.
  unfold strtol.
  pose proof (skip_spaces_le s) as H0.
  pose proof (sign_prefix_le (drop (skip_spaces s) s)) as H1.
  rewrite strlen_drop in H1 by done.
  destruct (sign_prefix (drop (skip_spaces s) s)) as [neg i1]. simpl in H1.
  pose proof (base_prefix_le (drop (skip_spaces s + i1) s)) as H2.
  rewrite strlen_drop in H2 by lia.
  destruct (base_prefix (drop (skip_spaces s + i1) s)) as [base i2] eqn:Eb.
  simpl in H2.
  pose proof (scan_digits_le base (drop (skip_spaces s + i1 + i2) s) 0) as H3.
  rewrite strlen_drop in H3 by lia.
  destruct (scan_digits base (drop (skip_spaces s + i1 + i2) s) 0) as [v n].
  simpl in H3.
  destruct (n =? 0) eqn:En.
  - destruct (i2 =? 2) eqn:E2; simpl; [|lia].
    apply Nat.eqb_eq in E2. lia.
  - destruct (_ <? _)%Z; simpl; [lia|].
    destruct (_ <? _)%Z; simpl; lia.
Qed.

Lemma strtol_errno LONG_MAX s :
  let '(n, _, errno) := strtol LONG_MAX s in
  errno = 0%Z ∨ (errno = ERANGE ∧ (n = LONG_MAX ∨ n = LONG_MIN LONG_MAX)).
Proof.
  unfold strtol.
  destruct (sign_prefix _) as [neg i1].
  destruct (base_prefix _) as [base i2].
  destruct (scan_digits _ _ _) as [v n].
  destruct (n =? 0); [destruct (i2 =? 2); auto|].
  destruct (_ <? _)%Z; [auto|].
  destruct (_ <? _)%Z; auto.
Qed.

Lemma nth_at_strlen s e :
  e ≤ strlen s → Byte.eqb (nth e s NUL) NUL = true ↔ e = strlen s.
Proof.
  revert e. induction s as [|b s IH]; intros e He; simpl in *.
  - assert (e = 0) as -> by lia. simpl. done.
  - destruct (Byte.eqb b NUL) eqn:E.
    + assert (e = 0) as -> by lia. done.
    + destruct e as [|e]; [rewrite E; split; [done | lia]|].
      rewrite IH by lia. lia.
Qed.

Lemma ParseInt_success_iff LONG_MAX s nP :
  (ParseInt LONG_MAX s nP).1 = true ↔
  0 < strlen s
  ∧ 0 < (strtol LONG_MAX s).1.2
  ∧ (strtol LONG_MAX s).1.2 = strlen s
  ∧ (strtol LONG_MAX s).2 = 0%Z.
Proof.
  pose proof (strtol_end_le LONG_MAX s) as Hle.
  unfold ParseInt.
  destruct (strtol LONG_MAX s) as [[n e] errno]. simpl in *.
  pose proof (nth_at_strlen s e Hle) as Hnth.
  destruct (e =? 0) eqn:E0; simpl.
  { apply Nat.eqb_eq in E0. split; [done | lia]. }
  apply Nat.eqb_neq in E0.
  destruct (Byte.eqb (nth e s NUL) NUL) eqn:E1; simpl.
  - apply proj1 in Hnth. specialize (Hnth eq_refl).
    destruct (errno =? 0)%Z eqn:E2; simpl.
    + apply Z.eqb_eq in E2. split; [intros _; split_and!; lia | done].
    + apply Z.eqb_neq in E2. split; [done | tauto].
  - split; [done|]. intros (_ & _ & He & _).
    apply Hnth in He. congruence.
Qed.

Lemma strtol_in_range LONG_MAX (s : list byte) neg i1 base i2 v n :
  sign_prefix (drop (skip_spaces s) s) = (neg, i1) →
  base_prefix (drop (skip_spaces s + i1) s) = (base, i2) →
  scan_digits base (drop (skip_spaces s + i1 + i2) s) 0 = (v, S n) →
  let w := if neg then (- v)%Z else v in
  (LONG_MIN LONG_MAX ≤ w ≤ LONG_MAX)%Z →
  strtol LONG_MAX s = (w, skip_spaces s + i1 + i2 + S n, 0%Z).
Proof.
  intros Hs Hb Hd w Hw. unfold strtol. rewrite Hs, Hb, Hd.
  cbn [Nat.eqb]. fold w.
  destruct (LONG_MAX <? w)%Z eqn:E1; [apply Z.ltb_lt in E1; lia|].
  destruct (w <? LONG_MIN LONG_MAX)%Z eqn:E2; [apply Z.ltb_lt in E2; lia|].
  done.
Qed.

(** C4. [ParseInt] succeeds exactly when the input is not empty, [strtol]
    with base 0 consumed at least one byte and stopped at the end of the
    input, and left [errno] at zero, which it does unless the value was out
    of the range of [long]; on success the output is the value narrowed to
    [int].  So "42" gives 42, "42abc" and "" fail, and "0x2A" gives 42. *)
Theorem ParseInt_succeeds_iff (LONG_MAX : Z) :
  (2147483647 ≤ LONG_MAX)%Z →
  (∀ s nP,
     ((ParseInt LONG_MAX s nP).1 = true ↔
      0 < strlen s
      ∧ 0 < (strtol LONG_MAX s).1.2
      ∧ (strtol LONG_MAX s).1.2 = strlen s
      ∧ (strtol LONG_MAX s).2 = 0%Z)
     ∧ ((ParseInt LONG_MAX s nP).1 = true →
        (ParseInt LONG_MAX s nP).2 = int_of_long (strtol LONG_MAX s).1.1)
     ∧ ((strtol LONG_MAX s).2 = 0%Z
        ∨ (strtol LONG_MAX s).2 = ERANGE
          ∧ ((strtol LONG_MAX s).1.1 = LONG_MAX
             ∨ (strtol LONG_MAX s).1.1 = LONG_MIN LONG_MAX)))
  ∧ (∀ nP, ParseInt LONG_MAX (bytes "42") nP = (true, 42%Z))
  ∧ (∀ nP, ParseInt LONG_MAX (bytes "42abc") nP = (false, nP))
  ∧ (∀ nP, ParseInt LONG_MAX (bytes "") nP = (false, nP))
  ∧ (∀ nP, ParseInt LONG_MAX (bytes "0x2A") nP = (true, 42%Z)).
Proof.
  intros Hmax. split_and!.
  - intros s nP. split_and!.
    + apply ParseInt_success_iff.
    + unfold ParseInt. destruct (strtol LONG_MAX s) as [[n e] errno]. simpl.
      destruct (_ || _ || _); [done | done].
    + pose proof (strtol_errno LONG_MAX s) as H.
      destruct (strtol LONG_MAX s) as [[n e] errno]. exact H.
  - intros nP. unfold ParseInt.
    rewrite (strtol_in_range LONG_MAX (bytes "42") false 0 10 0 42 1);
      [reflexivity | reflexivity | reflexivity | reflexivity
      | unfold LONG_MIN; lia].
  - intros nP. unfold ParseInt.
    rewrite (strtol_in_range LONG_MAX (bytes "42abc") false 0 10 0 42 1);
      [reflexivity | reflexivity | reflexivity | reflexivity
      | unfold LONG_MIN; lia].
  - intros nP. reflexivity.
  - intros nP. unfold ParseInt.
    rewrite (strtol_in_range LONG_MAX (bytes "0x2A") false 0 16 2 42 1);
      [reflexivity | reflexivity | reflexivity | reflexivity
      | unfold LONG_MIN; lia].
Qed.

Lemma ParseInt_succeeds_iff_witness :
  ParseInt (2 ^ 63 - 1) (bytes "42") 7 = (true, 42%Z)
  ∧ ParseInt (2 ^ 63 - 1) (bytes "42abc") 7 = (false, 7%Z)
  ∧ ParseInt (2 ^ 63 - 1) (bytes "") 7 = (false, 7%Z)
  ∧ ParseInt (2 ^ 63 - 1) (bytes "0x2A") 7 = (true, 42%Z).
Proof.
  destruct (ParseInt_succeeds_iff (2 ^ 63 - 1)) as (_ & H1 & H2 & H3 & H4);
    [lia|].
  split_and!; [apply H1 | apply H2 | apply H3 | apply H4].
Defined.

(** ** ParseInt leaves the output alone on failure *)

(** C10. Whenever [ParseInt] returns false, the integer at [nP] holds what
    it held before the call. *)
Theorem ParseInt_failure_keeps_output (LONG_MAX : Z) (s : list byte) (nP : Z) :
  (ParseInt LONG_MAX s nP).1 = false → (ParseInt LONG_MAX s nP).2 = nP.
Proof.
  unfold ParseInt. destruct (strtol LONG_MAX s) as [[n e] errno].
  destruct (_ || _ || _); [done | discriminate].
Qed.

Lemma ParseInt_failure_keeps_output_witness :
  (ParseInt (2 ^ 63 - 1) (bytes "42abc") 7).1 = false
  ∧ (ParseInt (2 ^ 63 - 1) (bytes "42abc") 7).2 = 7%Z.
Proof.
  assert (H : (ParseInt (2 ^ 63 - 1) (bytes "42abc") 7).1 = false)
    by (vm_compute; reflexivity).
  split; [exact H|].
  exact (ParseInt_failure_keeps_output (2 ^ 63 - 1) (bytes "42abc") 7 H).
Defined.

(** * Further properties of the string helpers *)

Lemma drop_put (pre m : list byte) :
  drop (S (length pre)) (put pre m) = drop (S (length pre)) m.
Proof.
  unfold put. rewrite drop_app_ge by lia.
  replace (S (length pre) - length pre) with 1 by lia. simpl. apply drop_0.
Qed.

Lemma drop_put_ge (pre m : list byte) n :
  length pre < n → drop n (put pre m) = drop n m.
Proof.
  intros H. replace n with (S (length pre) + (n - S (length pre))) by lia.
  rewrite <- !drop_drop. by rewrite drop_put.
Qed.

(** X1. [mystrcpy] on a null destination, or with capacity 0, prints its
    diagnostic and stores nothing; on a null source (with a destination of
    capacity [c >= 1]) it prints its diagnostic and leaves the empty string,
    storing only at index 0 and changing no other byte. *)
Theorem mystrcpy_rejected_calls (c : nat) (src : option (list byte))
    (m : list byte) :
  mystrcpy NullPtr c src (fresh m)
    = Some (tt, BufState m [] [ErrPrint "mystrcpy null dst\n" []])
  ∧ mystrcpy BufPtr 0 src (fresh m)
    = Some (tt, BufState m [] [ErrPrint "mystrcpy invalid dst size\n" []])
  ∧ (1 ≤ c → c ≤ length m →
     ∃ st', mystrcpy BufPtr c None (fresh m) = Some (tt, st')
       ∧ cstring (mem st') = []
       ∧ drop 1 (mem st') = drop 1 m
       ∧ wlog st' = [0]
       ∧ dlog st' = [ErrPrint "mystrcpy null src\n" []]).
Proof.
  split_and!; [reflexivity | reflexivity |].
  intros Hc Hm. rewrite mystrcpy_null_src by done.
  eexists. split; [reflexivity|]. cbn [mem wlog dlog fresh app].
  split_and!; [apply cstring_put_any | apply (drop_put [] m) | done | done].
Qed.

Lemma mystrcpy_rejected_calls_witness :
  ∃ st', mystrcpy BufPtr 2 None (fresh (bytes "xyz")) = Some (tt, st')
    ∧ cstring (mem st') = []
    ∧ drop 1 (mem st') = bytes "yz"
    ∧ wlog st' = [0]
    ∧ dlog st' = [ErrPrint "mystrcpy null src\n" []].
Proof.
  apply (mystrcpy_rejected_calls 2 None (bytes "xyz")); simpl; lia.
Defined.

(** X2. [mystrcat] stores nothing and prints exactly one diagnostic when the
    destination is null, when the capacity is 0, when the string already in
    the destination is not shorter than the capacity, and when the source is
    null. *)
Theorem mystrcat_rejected_calls (c : nat) (src : option (list byte))
    (m : list byte) :
  mystrcat NullPtr c src (fresh m)
    = Some (tt, BufState m [] [ErrPrint "mystrcat null dst\n" []])
  ∧ mystrcat BufPtr 0 src (fresh m)
    = Some (tt, BufState m [] [ErrPrint "mystrcat invalid dst size\n" []])
  ∧ (1 ≤ c → c ≤ strlen m → strlen m < length m →
     mystrcat BufPtr c src (fresh m)
     = Some (tt, BufState m [] [ErrPrint "mystrcat invalid dst len\n" []]))
  ∧ (strlen m < c → c ≤ length m →
     mystrcat BufPtr c None (fresh m)
     = Some (tt, BufState m [] [ErrPrint "mystrcat null src\n" []])).
Proof.
  split_and!; [reflexivity | reflexivity | |].
  - intros Hc Hd Hm. by rewrite mystrcat_invalid_len.
  - intros Hd Hm. by rewrite mystrcat_null_src.
Qed.

Lemma mystrcat_rejected_calls_witness :
  mystrcat BufPtr 2 (Some (bytes "z")) (fresh (bytes "abc" ++ [NUL]))
  = Some (tt, BufState (bytes "abc" ++ [NUL]) []
                [ErrPrint "mystrcat invalid dst len\n" []])
  ∧ mystrcat BufPtr 4 None (fresh (bytes "abc" ++ [NUL]))
    = Some (tt, BufState (bytes "abc" ++ [NUL]) []
                  [ErrPrint "mystrcat null src\n" []]).
Proof.
  split.
  - apply (mystrcat_rejected_calls 2 (Some (bytes "z")) (bytes "abc" ++ [NUL]));
      simpl; lia.
  - apply (mystrcat_rejected_calls 4 None (bytes "abc" ++ [NUL])); simpl; lia.
Defined.

(** X3. With a destination holding a string of length [d < c], [mystrcat]
    leaves the old string followed by the first [c - 1 - d] bytes of the
    source: the old string is never altered, the bytes behind the new
    terminator keep their values, and the overflow diagnostic is printed
    exactly when the source does not fit. *)
Theorem mystrcat_appends_or_truncates (c : nat) (s m : list byte) :
  strlen m < c → c ≤ length m →
  ∃ st', mystrcat BufPtr c (Some s) (fresh m) = Some (tt, st')
    ∧ cstring (mem st') = cstring m ++ take (c - 1 - strlen m) (cstring s)
    ∧ drop (S (strlen (mem st'))) (mem st') = drop (S (strlen (mem st'))) m
    ∧ (strlen s ≤ c - 1 - strlen m → dlog st' = [])
    ∧ (c - 1 - strlen m < strlen s →
       dlog st' = [ErrPrint "mystrcat buffer overflow\n" []]).
Proof.
  intros Hd Hm. rewrite mystrcat_run by done.
  eexists. split; [reflexivity|]. cbn [mem wlog dlog fresh app].
  set (d := strlen m). set (k := strlen s `min` (c - 1 - d)).
  pose proof (strlen_le s) as Hs.
  rewrite cat_as_put by (unfold d; lia).
  assert (Hn : Forall (λ b, b ≠ NUL) (take d m ++ take k s)).
  { apply Forall_app. split; apply strlen_take_nonul; unfold d, k; lia. }
  assert (Hl : length (take d m ++ take k s) = d + k).
  { rewrite length_app, !length_take. unfold d, k. lia. }
  split_and!.
  - rewrite put_cstring by done. fold (cstring m). f_equal.
    symmetry. rewrite <- take_min_length, cstring_length.
    apply take_cstring. lia.
  - rewrite put_strlen, Hl by done. rewrite <- Hl. apply drop_put.
  - intros Hfit. unfold cat_note. fold d.
    destruct (c - 1 - d <? strlen s) eqn:E; [apply Nat.ltb_lt in E; lia | done].
  - intros Hover. unfold cat_note. fold d.
    destruct (c - 1 - d <? strlen s) eqn:E; [done | apply Nat.ltb_ge in E; lia].
Qed.

Lemma mystrcat_appends_or_truncates_witness :
  ∃ st', mystrcat BufPtr 6 (Some (bytes "daemon"))
           (fresh (bytes "log" ++ [NUL; x78; x78; x78])) = Some (tt, st')
    ∧ cstring (mem st') = bytes "logda"
    ∧ dlog st' = [ErrPrint "mystrcat buffer overflow\n" []].
Proof.
  destruct (mystrcat_appends_or_truncates 6 (bytes "daemon")
              (bytes "log" ++ [NUL; x78; x78; x78]))
    as (st' & Hrun & Hstr & _ & _ & Hover); [simpl; lia | simpl; lia |].
  exists st'. split_and!; [exact Hrun | rewrite Hstr; reflexivity |].
  apply Hover. simpl. lia.
Defined.

Lemma mystrcpy_frame dst c src m :
  c ≤ length m →
  ∃ st', mystrcpy dst c src (fresh m) = Some (tt, st')
    ∧ drop c (mem st') = drop c m.
Proof.
  intros Hm. destruct dst; [eexists; split; [reflexivity | done]|].
  destruct (decide (1 ≤ c)) as [Hc|Hc];
    [|assert (c = 0) as -> by lia; eexists; split; [reflexivity | done]].
  destruct src as [s|].
  - rewrite mystrcpy_run by done. eexists. split; [reflexivity|].
    cbn [mem fresh]. apply drop_put_ge. rewrite length_take.
    pose proof (strlen_le s). lia.
  - rewrite mystrcpy_null_src by done. eexists. split; [reflexivity|].
    cbn [mem fresh]. apply drop_put_ge. simpl. lia.
Qed.

Lemma mystrcat_frame dst c src m :
  c ≤ length m → strlen m < length m →
  ∃ st', mystrcat dst c src (fresh m) = Some (tt, st')
    ∧ drop c (mem st') = drop c m.
Proof.
  intros Hm Ht. destruct dst; [eexists; split; [reflexivity | done]|].
  destruct (decide (1 ≤ c)) as [Hc|Hc];
    [|assert (c = 0) as -> by lia; eexists; split; [reflexivity | done]].
  destruct (decide (c ≤ strlen m)) as [Hd|Hd].
  { rewrite mystrcat_invalid_len by done. eexists. split; [reflexivity | done]. }
  destruct src as [s|].
  - rewrite mystrcat_run by (cbn [fresh mem]; lia).
    eexists. split; [reflexivity|]. cbn [mem fresh].
    rewrite cat_as_put by lia. apply drop_put_ge.
    rewrite length_app, !length_take. pose proof (strlen_le s). lia.
  - rewrite mystrcat_null_src by (cbn [fresh mem]; lia).
    eexists. split; [reflexivity | done].
Qed.

Lemma mysprintf_frame vformat dst c fmt args m :
  c ≤ length m →
  ∃ st', mysprintf vformat dst c fmt args (fresh m) = Some (tt, st')
    ∧ drop c (mem st') = drop c m.
Proof.
  intros Hm. destruct dst; [eexists; split; [reflexivity | done]|].
  destruct (decide (1 ≤ c)) as [Hc|Hc];
    [|assert (c = 0) as -> by lia; eexists; split; [reflexivity | done]].
  destruct fmt as [f|].
  - destruct (vformat f args) as [out|scr] eqn:Hf.
    + rewrite (mysprintf_run_ok _ _ _ _ out) by done.
      eexists. split; [reflexivity|]. cbn [mem fresh].
      apply drop_put_ge. rewrite length_take. lia.
    + rewrite (mysprintf_run_fail _ _ _ _ scr) by done.
      eexists. split; [reflexivity|]. cbn [mem fresh].
      rewrite drop_put_ge by (simpl; lia).
      rewrite drop_app_ge by (rewrite length_take; lia).
      rewrite length_take, drop_drop. f_equal. lia.
  - rewrite mysprintf_null_fmt by done. eexists. split; [reflexivity|].
    cbn [mem fresh]. apply drop_put_ge. simpl. lia.
Qed.

(** X4. Whatever its arguments (null pointers, capacity 0, sources longer
    than the buffer, a failing formatter), no helper changes a byte at an
    index [>= c]: the memory behind the declared capacity is the same after
    the call.  ([mystrcat] as always needs a terminator somewhere at
    [dst].) *)
Theorem helpers_keep_memory_behind_capacity (vformat : formatter) (dst : ptr)
    (c : nat) (src fmt : option (list byte)) (args : list arg)
    (m : list byte) :
  c ≤ length m →
  (∃ st', mystrcpy dst c src (fresh m) = Some (tt, st')
     ∧ drop c (mem st') = drop c m)
  ∧ (strlen m < length m →
     ∃ st', mystrcat dst c src (fresh m) = Some (tt, st')
       ∧ drop c (mem st') = drop c m)
  ∧ (∃ st', mysprintf vformat dst c fmt args (fresh m) = Some (tt, st')
       ∧ drop c (mem st') = drop c m).
Proof.
  intros Hm. split_and!.
  - by apply mystrcpy_frame.
  - intros Ht. by apply mystrcat_frame.
  - by apply mysprintf_frame.
Qed.

Lemma helpers_keep_memory_behind_capacity_witness :
  let m := bytes "ab" ++ [NUL] ++ bytes "canary" in
  (∃ st', mystrcpy BufPtr 3 (Some (bytes "overlong")) (fresh m) = Some (tt, st')
     ∧ drop 3 (mem st') = bytes "canary")
  ∧ (∃ st', mystrcat BufPtr 3 (Some (bytes "overlong")) (fresh m) = Some (tt, st')
       ∧ drop 3 (mem st') = bytes "canary")
  ∧ (∃ st', mysprintf c_format BufPtr 3 (Some (bytes "%d")) [AInt 123456]
              (fresh m) = Some (tt, st')
       ∧ drop 3 (mem st') = bytes "canary").
Proof.
  intros m.
  destruct (helpers_keep_memory_behind_capacity c_format BufPtr 3
              (Some (bytes "overlong")) (Some (bytes "%d")) [AInt 123456%Z] m)
    as (H1 & H2 & H3); [simpl; lia|].
  split_and!; [exact H1 | apply H2; simpl; lia | exact H3].
Defined.

(** X5. [mystrcpy] stores at the indices [0 .. k] only, where [k] is the
    length of the string it leaves, and does not clear the rest of the
    buffer: every byte behind the new terminator keeps the value it had. *)
Theorem mystrcpy_leaves_tail (c : nat) (s m : list byte) :
  1 ≤ c → c ≤ length m →
  ∃ st', mystrcpy BufPtr c (Some s) (fresh m) = Some (tt, st')
    ∧ strlen (mem st') = strlen s `min` (c - 1)
    ∧ Forall (λ i, i ≤ strlen (mem st')) (wlog st')
    ∧ drop (S (strlen (mem st'))) (mem st') = drop (S (strlen (mem st'))) m.
Proof.
  intros Hc Hm. rewrite mystrcpy_run by done.
  eexists. split; [reflexivity|]. cbn [mem wlog dlog fresh app].
  set (k := strlen s `min` (c - 1)).
  pose proof (strlen_le s) as Hs.
  assert (Hl : length (take k s) = k) by (rewrite length_take; unfold k; lia).
  assert (Hk : strlen (put (take k s) m) = k).
  { rewrite put_strlen by (apply strlen_take_nonul; unfold k; lia). done. }
  rewrite Hk. split_and!; [done | |].
  - constructor; [lia|]. apply Forall_app. split.
    + apply Forall_seq. intros j Hj. lia.
    + by repeat constructor.
  - rewrite <- Hl at 1 3. apply drop_put.
Qed.

Lemma mystrcpy_leaves_tail_witness :
  ∃ st', mystrcpy BufPtr 8 (Some (bytes "hi")) (fresh (bytes "password"))
         = Some (tt, st')
    ∧ strlen (mem st') = 2
    ∧ drop 3 (mem st') = bytes "sword".
Proof.
  destruct (mystrcpy_leaves_tail 8 (bytes "hi") (bytes "password"))
    as (st' & Hrun & Hlen & _ & Htail); [lia | simpl; lia |].
  exists st'. split; [exact Hrun|].
  assert (Hk : strlen (mem st') = 2) by (rewrite Hlen; reflexivity).
  split; [exact Hk|]. rewrite Hk in Htail. rewrite Htail. reflexivity.
Defined.

Lemma take_two_sources n s1 s2 :
  let k1 := strlen s1 `min` n in
  let k2 := strlen s2 `min` (n - k1) in
  take k1 s1 ++ take k2 s2
  = take ((strlen s1 + strlen s2) `min` n) (cstring s1 ++ s2).
Proof.
  intros k1 k2. destruct (decide (strlen s1 ≤ n)) as [Hle|Hgt].
  - replace k1 with (strlen s1) in * by (unfold k1; lia).
    replace ((strlen s1 + strlen s2) `min` n) with (strlen s1 + k2)
      by (unfold k2; lia).
    fold (cstring s1).
    rewrite take_app_ge by (rewrite cstring_length; lia).
    rewrite cstring_length. do 2 f_equal. lia.
  - replace k2 with 0 by (unfold k2, k1; lia).
    replace k1 with n by (unfold k1; lia).
    replace ((strlen s1 + strlen s2) `min` n) with n by lia.
    rewrite take_0, app_nil_r, take_app_le by (rewrite cstring_length; lia).
    symmetry. apply take_cstring. lia.
Qed.

(** X6. Two appends compose: on a destination holding a string shorter than
    [c], [mystrcat] of [s1] followed by [mystrcat] of [s2] leaves the same
    bytes in the buffer as one [mystrcat] of the two strings joined. *)
Theorem mystrcat_twice (c : nat) (s1 s2 m : list byte) :
  strlen m < c → c ≤ length m →
  ∃ st1 st2,
    (mystrcat BufPtr c (Some s1) ;>> mystrcat BufPtr c (Some s2)) (fresh m)
      = Some (tt, st1)
    ∧ mystrcat BufPtr c (Some (cstring s1 ++ s2)) (fresh m) = Some (tt, st2)
    ∧ mem st1 = mem st2.
Proof.
  intros Hd Hm. unfold bind at 1.
  rewrite (mystrcat_run c s1 (fresh m)) by done.
  rewrite (mystrcat_run c (cstring s1 ++ s2) (fresh m)) by done.
  cbn [fresh mem wlog dlog].
  set (d := strlen m). set (n := c - 1 - d).
  set (k1 := strlen s1 `min` n).
  pose proof (strlen_le s1) as Hs1. pose proof (strlen_le s2) as Hs2.
  assert (Hdm : d ≤ length m) by (unfold d; lia).
  rewrite cat_as_put by done.
  set (p := take d m ++ take k1 s1).
  assert (Hp : length p = d + k1).
  { unfold p. rewrite length_app, !length_take. unfold k1. lia. }
  assert (Hpn : Forall (λ b, b ≠ NUL) p).
  { apply Forall_app. split; apply strlen_take_nonul; unfold d, k1; lia. }
  assert (Hsl : strlen (put p m) = d + k1) by (by rewrite put_strlen).
  assert (Hlen : length (put p m) = length m)
    by (apply put_length; unfold k1, n in *; lia).
  rewrite mystrcat_run by (cbn [mem]; unfold k1, n in *; lia).
  cbn [mem wlog dlog]. rewrite Hsl.
  eexists _, _. split; [reflexivity|]. split; [reflexivity|].
  cbn [mem].
  assert (Htk : take (d + k1) (put p m) = p).
  { rewrite <- Hp. apply take_put_prefix. }
  rewrite cat_as_put by lia. rewrite Htk.
  rewrite put_put by (rewrite length_app; lia).
  rewrite cat_as_put by done. fold d n.
  rewrite strlen_cstring_app. f_equal. unfold p. rewrite <- app_assoc. f_equal.
  replace (c - 1 - (d + k1)) with (n - k1) by (unfold n; lia).
  apply take_two_sources.
Qed.

Lemma mystrcat_twice_witness :
  ∃ st1 st2,
    (mystrcat BufPtr 8 (Some (bytes "log")) ;>>
     mystrcat BufPtr 8 (Some (bytes "daemon")))
      (fresh (bytes "Pm" ++ [NUL] ++ bytes "xxxxx")) = Some (tt, st1)
    ∧ mystrcat BufPtr 8 (Some (cstring (bytes "log") ++ bytes "daemon"))
        (fresh (bytes "Pm" ++ [NUL] ++ bytes "xxxxx")) = Some (tt, st2)
    ∧ mem st1 = mem st2.
Proof.
  apply (mystrcat_twice 8 (bytes "log") (bytes "daemon")
           (bytes "Pm" ++ [NUL] ++ bytes "xxxxx")); simpl; lia.
Defined.

(** * Further properties of the process lock *)

Lemma calls_app t1 t2 : calls (t1 ++ t2) = calls t1 ++ calls t2.
Proof.
  induction t1 as [|[c|d] t1 IH]; simpl; [done | by rewrite IH | done].
Qed.

Lemma calls_reports (l : list diag) : calls (map Report l) = [].
Proof. induction l as [|d l IH]; simpl; done. Qed.

Lemma calls_open_events component g :
  calls (open_events component g)
  = [SysMkdir (bytes "/tmp/run") 0x1ff; open_call component].
Proof.
  unfold open_events, open_call, opened_path. cbn [calls].
  rewrite calls_app, calls_reports, lock_path_cstring. reflexivity.
Qed.

Lemma calls_locked_events env :
  calls (locked_events env)
  = [SysFtruncate (open_ret env) 0;
     SysWrite (open_ret env) (cstring (pidStr_after env))].
Proof.
  unfold locked_events, truncate_report, write_report. cbn [calls].
  rewrite !calls_app, calls_reports. cbn [calls app].
  destruct (ftruncate_ret env <? 0)%Z; destruct (write_ret env <? _)%Z;
    reflexivity.
Qed.

(** X7. The system calls of one [LockProcess], in order: [mkdir] of
    "/tmp/run" with mode 0777 (its result is not looked at), [open] of the
    lock file path, then [lockf] only if [open] succeeded, then [ftruncate]
    and [write] only if the lock was obtained.  So a call that returns false
    has neither truncated nor written the file, and no call ever unlinks
    it. *)
Theorem LockProcess_call_sequence (env : sysenv) (component : list byte)
    (g : LockFile) (t : list event) :
  length (path g) = PATH_MAX →
  ∃ r ps new,
    LockProcess env component (mkProc g t) = Some (r, ps)
    ∧ trace ps = t ++ new
    ∧ calls new =
      SysMkdir (bytes "/tmp/run") 0x1ff
      :: open_call component
      :: (if (open_ret env <? 0)%Z then []
          else SysLockfTest (open_ret env) 0
               :: (if (lockf_ret env <? 0)%Z then []
                   else [SysFtruncate (open_ret env) 0;
                         SysWrite (open_ret env) (cstring (pidStr_after env))])).
Proof.
  intros Hg.
  destruct (Z.lt_ge_cases (open_ret env) 0) as [Ho|Ho].
  { rewrite LockProcess_open_fails by done.
    eexists _, _, _. split; [reflexivity|]. split; [reflexivity|].
    rewrite calls_app, calls_open_events.
    apply Z.ltb_lt in Ho. rewrite Ho. reflexivity. }
  destruct (Z.lt_ge_cases (lockf_ret env) 0) as [Hl|Hl].
  { rewrite LockProcess_lock_fails by done.
    eexists _, _, _. split; [reflexivity|]. split; [reflexivity|].
    rewrite calls_app, calls_open_events.
    apply Z.ltb_ge in Ho. apply Z.ltb_lt in Hl. rewrite Ho, Hl.
    unfold lock_failure. reflexivity. }
  rewrite LockProcess_locked by done.
  eexists _, _, _. split; [reflexivity|]. split; [reflexivity|].
  rewrite calls_app, calls_open_events. cbn [calls].
  rewrite calls_locked_events.
  apply Z.ltb_ge in Ho. apply Z.ltb_ge in Hl. rewrite Ho, Hl. reflexivity.
Qed.

Lemma LockProcess_call_sequence_witness :
  ∃ ps,
    LockProcess (mkSysenv 1234 3 0 (-1) 11 0 0 0 0 (λ _, x41)) (bytes "logd")
      (mkProc zero_lock []) = Some (false, ps)
    ∧ calls (trace ps)
      = [SysMkdir (bytes "/tmp/run") 0x1ff;
         SysOpen (bytes "/tmp/run/logd.pid") [O_RDWR; O_CREAT] [S_IRUSR; S_IWUSR];
         SysLockfTest 3 0].
Proof.
  assert (Hlen : length (path zero_lock) = PATH_MAX) by (vm_compute; reflexivity).
  destruct (LockProcess_call_sequence
              (mkSysenv 1234 3 0 (-1) 11 0 0 0 0 (λ _, x41)) (bytes "logd")
              zero_lock [] Hlen) as (r & ps & new & Hrun & Htrace & Hcalls).
  assert (Hr : r = false).
  { vm_compute in Hrun. injection Hrun as Hr _. symmetry. exact Hr. }
  subst r. exists ps. split; [exact Hrun|].
  rewrite Htrace. cbn [app]. rewrite Hcalls. vm_compute. reflexivity.
Defined.

Lemma LockProcess_trace_prefix env component g t :
  length (path g) = PATH_MAX →
  ∃ r ps post,
    LockProcess env component (mkProc g t) = Some (r, ps)
    ∧ trace ps = t ++ open_events component g ++ post.
Proof.
  intros Hg.
  destruct (Z.lt_ge_cases (open_ret env) 0) as [Ho|Ho];
    [rewrite LockProcess_open_fails by done|
     destruct (Z.lt_ge_cases (lockf_ret env) 0) as [Hl|Hl];
     [rewrite LockProcess_lock_fails by done
     |rewrite LockProcess_locked by done]];
    eexists _, _, _; (split; [reflexivity|]); cbn [trace]; reflexivity.
Qed.

Lemma lock_path_text_length component :
  length (lock_path_text component) = strlen component + 13.
Proof.
  unfold lock_path_text. rewrite length_app. cbn [length].
  rewrite length_app, cstring_length. simpl. lia.
Qed.

(** X8. [LockProcess] opens "/tmp/run/<component>.pid" exactly, with no
    diagnostic from the formatting, when that path is shorter than
    [PATH_MAX].  When it is not, the overflow diagnostic is printed and
    [open] is still called, on the first [PATH_MAX - 1] bytes of the path:
    an over-long component is not an error of its own. *)
Theorem LockProcess_path_fits_or_truncates (env : sysenv)
    (component : list byte) (g : LockFile) (t : list event) :
  length (path g) = PATH_MAX →
  ∃ r ps pre post,
    LockProcess env component (mkProc g t) = Some (r, ps)
    ∧ trace ps
      = t ++ Call (SysMkdir (bytes "/tmp/run") 0x1ff)
          :: map Report pre ++ Call (open_call component) :: post
    ∧ (strlen component + 13 < PATH_MAX →
       opened_path component = lock_path_text component ∧ pre = [])
    ∧ (PATH_MAX ≤ strlen component + 13 →
       length (opened_path component) = PATH_MAX - 1
       ∧ pre = [ErrPrint "mysprintf buffer overflow\n" []]).
Proof.
  intros Hg.
  destruct (LockProcess_trace_prefix env component g t Hg)
    as (r & ps & post & Hrun & Htrace).
  exists r, ps, (sprintf_note PATH_MAX (lock_path_text component)), post.
  split; [exact Hrun|].
  pose proof (lock_path_text_length component) as Hlen.
  split_and!.
  - rewrite Htrace. unfold open_events, open_call, opened_path.
    rewrite lock_path_cstring. cbn [app]. by rewrite <- app_assoc.
  - intros Hfit. unfold opened_path, sprintf_note. split.
    + apply take_ge. lia.
    + destruct (PATH_MAX <=? _) eqn:E; [apply Nat.leb_le in E; lia | done].
  - intros Hover. unfold opened_path, sprintf_note. split.
    + rewrite length_take. lia.
    + destruct (PATH_MAX <=? _) eqn:E; [done | apply Nat.leb_gt in E; lia].
Qed.

Lemma LockProcess_path_fits_or_truncates_witness :
  ∃ r ps post,
    LockProcess env_truncate_fails (repeat x61 5000) (mkProc zero_lock [])
      = Some (r, ps)
    ∧ trace ps
      = Call (SysMkdir (bytes "/tmp/run") 0x1ff)
        :: Report (ErrPrint "mysprintf buffer overflow\n" [])
        :: Call (open_call (repeat x61 5000)) :: post
    ∧ length (opened_path (repeat x61 5000)) = 4095.
Proof.
  assert (Hlen : length (path zero_lock) = PATH_MAX) by (vm_compute; reflexivity).
  destruct (LockProcess_path_fits_or_truncates env_truncate_fails
              (repeat x61 5000) zero_lock [] Hlen)
    as (r & ps & pre & post & Hrun & Htrace & _ & Hover).
  destruct Hover as [Hl Hpre]; [vm_compute; lia|].
  exists r, ps, post. split; [exact Hrun|].
  rewrite Htrace, Hpre, Hl. split; reflexivity.
Defined.

Lemma UnlockProcess_run g t :
  UnlockProcess (mkProc g t)
  = Some (tt, mkProc g (t ++ [Call (SysClose (fd g));
                              Call (SysUnlink (cstring (path g)))])).
Proof.
  unfold UnlockProcess, bind, get_lock, call. cbn [g_processLock trace].
  by rewrite <- app_assoc.
Qed.

Lemma LockProcess_handle_fields_run env component g t :
  length (path g) = PATH_MAX →
  ∃ r ps,
    LockProcess env component (mkProc g t) = Some (r, ps)
    ∧ fd (g_processLock ps) = (if r then open_ret env else fd g)
    ∧ cstring (path (g_processLock ps)) = opened_path component.
Proof.
  intros Hg.
  destruct (Z.lt_ge_cases (open_ret env) 0) as [Ho|Ho];
    [rewrite LockProcess_open_fails by done|
     destruct (Z.lt_ge_cases (lockf_ret env) 0) as [Hl|Hl];
     [rewrite LockProcess_lock_fails by done
     |rewrite LockProcess_locked by done]];
    eexists _, _; (split; [reflexivity|]); cbn [g_processLock path fd];
    (split; [reflexivity | apply lock_path_cstring]).
Qed.

(** X9. [UnlockProcess] after [LockProcess]: if [LockProcess] returned true,
    it closes the descriptor [open] returned and unlinks the path that was
    opened.  If [LockProcess] returned false, it closes whatever descriptor
    the handle held before that call, and still unlinks the lock file path,
    although the lock on it was not obtained. *)
Theorem UnlockProcess_after_LockProcess (env : sysenv)
    (component : list byte) (g : LockFile) (t : list event) :
  length (path g) = PATH_MAX →
  ∃ r ps ps',
    LockProcess env component (mkProc g t) = Some (r, ps)
    ∧ UnlockProcess ps = Some (tt, ps')
    ∧ g_processLock ps' = g_processLock ps
    ∧ trace ps'
      = trace ps
        ++ [Call (SysClose (if r then open_ret env else fd g));
            Call (SysUnlink (opened_path component))].
Proof.
  intros Hg.
  destruct (LockProcess_handle_fields_run env component g t Hg)
    as (r & ps & Hrun & Hfd & Hpath).
  destruct ps as [g' t']. cbn [g_processLock] in *.
  exists r, (mkProc g' t'). eexists. split; [exact Hrun|].
  split; [apply UnlockProcess_run|]. cbn [g_processLock trace].
  split; [reflexivity|]. rewrite Hfd, Hpath. reflexivity.
Qed.

Lemma UnlockProcess_after_LockProcess_witness :
  ∃ ps ps',
    LockProcess env_open_fails (bytes "logd") (mkProc zero_lock [])
      = Some (false, ps)
    ∧ UnlockProcess ps = Some (tt, ps')
    ∧ trace ps'
      = trace ps
        ++ [Call (SysClose 0); Call (SysUnlink (bytes "/tmp/run/logd.pid"))].
Proof.
  assert (Hlen : length (path zero_lock) = PATH_MAX) by (vm_compute; reflexivity).
  destruct (UnlockProcess_after_LockProcess env_open_fails (bytes "logd")
              zero_lock [] Hlen) as (r & ps & ps' & Hrun & Hun & _ & Htrace).
  assert (Hr : r = false).
  { vm_compute in Hrun. injection Hrun as Hr _. symmetry. exact Hr. }
  subst r. exists ps, ps'. split; [exact Hrun|]. split; [exact Hun|].
  rewrite Htrace. reflexivity.
Defined.

Lemma os_close_fds d o : open_fds (os_close d o) = open_fds o ∖ {[d]}.
Proof.
  unfold os_close. case_decide; [done|].
  apply set_eq. intros x. rewrite elem_of_difference, elem_of_singleton.
  split; [|tauto]. intros Hx. split; [done|]. by intros ->.
Qed.

Lemma os_close_files d o : files (os_close d o) = files o.
Proof. unfold os_close. by case_decide. Qed.

Lemma os_unlink_fds p o : open_fds (os_unlink p o) = open_fds o.
Proof. unfold os_unlink. by case_decide. Qed.

Lemma os_unlink_files p o :
  files (os_unlink p o)
  = if decide (p = []) then files o else filter (λ q, q ≠ p) (files o).
Proof. unfold os_unlink. by case_decide. Qed.

Lemma os_eq o1 o2 :
  open_fds o1 = open_fds o2 → files o1 = files o2 → o1 = o2.
Proof. destruct o1, o2. simpl. by intros -> ->. Qed.

Lemma filter_twice (p : list byte) (l : list (list byte)) :
  filter (λ q, q ≠ p) (filter (λ q, q ≠ p) l) = filter (λ q, q ≠ p) l.
Proof.
  induction l as [|q l IH]; [done|].
  rewrite (filter_cons _ q l). case_decide.
  - rewrite filter_cons, decide_True by done. by rewrite IH.
  - exact IH.
Qed.



(** X11. [UnlockProcess] does not reset the handle, so a second call
    repeats the same [close] and [unlink]; the second pair of calls changes
    nothing in the system that the first had not already changed. *)
Theorem UnlockProcess_twice (g : LockFile) (t : list event) (o : os) :
  let once := [Call (SysClose (fd g)); Call (SysUnlink (cstring (path g)))] in
  (UnlockProcess ;>> UnlockProcess) (mkProc g t)
    = Some (tt, mkProc g (t ++ once ++ once))
  ∧ os_run (once ++ once) o = os_run once o.
Proof.
  intros once. split.
  - unfold bind. rewrite UnlockProcess_run, UnlockProcess_run.
    by rewrite <- app_assoc.
  - cbn [once app os_run]. f_equal. apply os_eq.
    + rewrite !os_unlink_fds, !os_close_fds, os_unlink_fds, os_close_fds.
      apply set_eq. intros x. rewrite !elem_of_difference. tauto.
    + rewrite !os_unlink_files, !os_close_files, os_unlink_files, os_close_files.
      case_decide; [done | apply filter_twice].
Qed.

(** * Further properties of ParseInt *)

Lemma skip_spaces_app ws s :
  Forall (λ b, isspace b = true) ws →
  skip_spaces (ws ++ s) = length ws + skip_spaces s.
Proof.
  induction 1 as [|b ws Hb _ IH]; simpl; [done|]. by rewrite Hb, IH.
Qed.

Lemma strtol_leading_spaces LONG_MAX ws s :
  Forall (λ b, isspace b = true) ws →
  strtol LONG_MAX (ws ++ s)
  = let '(n, e, errno) := strtol LONG_MAX s in
    (n, if e =? 0 then 0 else length ws + e, errno).
Proof.
  intros Hws. unfold strtol. rewrite skip_spaces_app by done.
  assert (Hdrop : ∀ k, drop (length ws + k) (ws ++ s) = drop k s).
  { intros k. rewrite drop_app_ge by lia. f_equal. lia. }
  assert (Hdrop2 : ∀ k j, drop (length ws + k + j) (ws ++ s) = drop (k + j) s).
  { intros k j. rewrite <- Nat.add_assoc. apply Hdrop. }
  assert (Hdrop3 : ∀ k j l,
            drop (length ws + k + j + l) (ws ++ s) = drop (k + j + l) s).
  { intros k j l. rewrite <- !Nat.add_assoc. rewrite Hdrop. f_equal. }
  rewrite Hdrop.
  destruct (sign_prefix (drop (skip_spaces s) s)) as [neg i1].
  rewrite Hdrop2.
  destruct (base_prefix (drop (skip_spaces s + i1) s)) as [base i2].
  rewrite Hdrop3.
  destruct (scan_digits base (drop (skip_spaces s + i1 + i2) s) 0) as [v n].
  destruct (n =? 0) eqn:En.
  - destruct (i2 =? 2); [|done].
    replace (skip_spaces s + i1 + 1 =? 0) with false
      by (symmetry; apply Nat.eqb_neq; lia).
    f_equal. f_equal. lia.
  - apply Nat.eqb_neq in En.
    assert (Hne : (skip_spaces s + i1 + i2 + n =? 0) = false)
      by (apply Nat.eqb_neq; lia).
    destruct (_ <? _)%Z; [rewrite Hne; f_equal; f_equal; lia|].
    destruct (_ <? _)%Z; rewrite Hne; f_equal; f_equal; lia.
Qed.

(** X12. White space before the number is ignored: for any run [ws] of
    space, tab, newline, vertical tab, form feed or carriage return bytes,
    [ParseInt] of [ws ++ s] gives exactly what [ParseInt] of [s] gives. *)
Theorem ParseInt_skips_leading_spaces (LONG_MAX : Z) (ws s : list byte)
    (nP : Z) :
  Forall (λ b, isspace b = true) ws →
  ParseInt LONG_MAX (ws ++ s) nP = ParseInt LONG_MAX s nP.
Proof.
  intros Hws. unfold ParseInt. rewrite strtol_leading_spaces by done.
  destruct (strtol LONG_MAX s) as [[n e] errno].
  destruct (e =? 0) eqn:E0; [done|].
  apply Nat.eqb_neq in E0.
  replace (length ws + e =? 0) with false by (symmetry; apply Nat.eqb_neq; lia).
  rewrite app_nth2 by lia.
  replace (length ws + e - length ws) with e by lia. done.
Qed.

Lemma ParseInt_skips_leading_spaces_witness :
  ParseInt (2 ^ 63 - 1) ([x20; x09] ++ bytes "-17") 0
  = ParseInt (2 ^ 63 - 1) (bytes "-17") 0.
Proof.
  apply (ParseInt_skips_leading_spaces (2 ^ 63 - 1) [x20; x09] (bytes "-17") 0).
  repeat constructor.
Defined.

Lemma scan_digits_last base u acc v n :
  scan_digits base u acc = (v, S n) →
  ∃ c d, u !! n = Some c ∧ digit_value c = Some d.
Proof.
  revert acc v n. induction u as [|c u IH]; intros acc v n; simpl; [done|].
  destruct (digit_value c) as [d|] eqn:Ec; [|done].
  destruct (d <? base)%Z; [|done].
  destruct (scan_digits base u (acc * base + d)) as [v' n'] eqn:Es.
  intros [= <- <-]. destruct n' as [|n'].
  - exists c, d. done.
  - destruct (IH _ _ _ Es) as (c' & d' & Hc' & Hd'). exists c', d'. done.
Qed.

Lemma base_prefix_two u base : base_prefix u = (base, 2) → 2 ≤ length u.
Proof.
  destruct u as [|b0 [|b1 u]]; simpl.
  - done.
  - destruct (Byte.eqb b0 x30); done.
  - intros _. lia.
Qed.

Lemma ParseInt_false LONG_MAX s nP :
  (ParseInt LONG_MAX s nP).1 = false → ParseInt LONG_MAX s nP = (false, nP).
Proof.
  unfold ParseInt. destruct (strtol LONG_MAX s) as [[n e] errno].
  destruct (_ || _ || _); [done | discriminate].
Qed.

Lemma strtol_end_is_digit LONG_MAX t :
  (strtol LONG_MAX t).1.2 = length t →
  0 < (strtol LONG_MAX t).1.2 →
  ∃ c d, t !! ((strtol LONG_MAX t).1.2 - 1) = Some c ∧ digit_value c = Some d.
Proof.
  unfold strtol.
  destruct (sign_prefix (drop (skip_spaces t) t)) as [neg i1].
  destruct (base_prefix (drop (skip_spaces t + i1) t)) as [base i2] eqn:Eb.
  destruct (scan_digits base (drop (skip_spaces t + i1 + i2) t) 0)
    as [v n] eqn:Es.
  destruct n as [|n]; cbn [Nat.eqb].
  - destruct (i2 =? 2) eqn:E2; cbn [fst snd]; [|lia].
    apply Nat.eqb_eq in E2. subst i2.
    apply base_prefix_two in Eb. rewrite length_drop in Eb. lia.
  - destruct (scan_digits_last _ _ _ _ _ Es) as (c & d & Hc & Hd).
    rewrite lookup_drop in Hc.
    assert (Hidx : ∀ e, e = skip_spaces t + i1 + i2 + S n →
              ∃ c d, t !! (e - 1) = Some c ∧ digit_value c = Some d).
    { intros e ->. exists c, d. split; [|done].
      rewrite <- Hc. f_equal. lia. }
    destruct (_ <? _)%Z; [intros _ _; by apply Hidx|].
    destruct (_ <? _)%Z; intros _ _; by apply Hidx.
Qed.

(** X13. An input whose last byte is not a digit or a letter makes
    [ParseInt] fail and leave the output alone: white space, a newline or
    punctuation after the number is rejected, although white space before it
    is accepted. *)
Theorem ParseInt_rejects_trailing_non_digit (LONG_MAX : Z) (s : list byte)
    (b : byte) (nP : Z) :
  Forall (λ x, x ≠ NUL) s → b ≠ NUL → digit_value b = None →
  ParseInt LONG_MAX (s ++ [b]) nP = (false, nP).
Proof.
  intros Hs Hb Hd. apply ParseInt_false.
  destruct (ParseInt LONG_MAX (s ++ [b]) nP).1 eqn:E; [|done].
  apply ParseInt_success_iff in E as (_ & Hpos & Hend & _).
  assert (Hlen : strlen (s ++ [b]) = length (s ++ [b])).
  { apply strlen_nonul, Forall_app. split; [done | by constructor]. }
  rewrite Hlen in Hend.
  destruct (strtol_end_is_digit LONG_MAX (s ++ [b]) Hend Hpos)
    as (c & d & Hc & Hdc).
  rewrite Hend, length_app in Hc. cbn [length] in Hc.
  replace (length s + 1 - 1) with (length s) in Hc by lia.
  rewrite list_lookup_middle in Hc by done.
  injection Hc as <-. congruence.
Qed.

Lemma ParseInt_rejects_trailing_non_digit_witness :
  ParseInt (2 ^ 63 - 1) (bytes "1234" ++ [x0a]) 7 = (false, 7%Z).
Proof.
  apply (ParseInt_rejects_trailing_non_digit (2 ^ 63 - 1) (bytes "1234") x0a 7).
  - repeat constructor; discriminate.
  - discriminate.
  - reflexivity.
Defined.

(** ** Decimal text and [strtol] *)

Lemma scan_digit_step b dv rest acc :
  digit_value b = Some dv → (dv <? 10)%Z = true →
  scan_digits 10 (b :: rest) acc
  = let '(v, n) := scan_digits 10 rest (acc * 10 + dv)%Z in (v, S n).
Proof. intros Hb Hd. cbn [scan_digits]. by rewrite Hb, Hd. Qed.

Lemma scan_digits_text d rest acc :
  scan_digits 10 (digit_bytes d ++ rest) acc
  = let '(v, n) := scan_digits 10 rest (uint_value d acc) in
    (v, Decimal.nb_digits d + n).
Proof.
  revert acc. induction d; intros acc;
    [cbn [Decimal.nb_digits uint_value Nat.add];
     change (digit_bytes Decimal.Nil ++ rest) with rest;
     by destruct (scan_digits 10 rest acc)
    | ..];
    match goal with
    | |- context [digit_bytes (?D d)] =>
      change (digit_bytes (D d) ++ rest)
        with (hd x00 (digit_bytes (D Decimal.Nil)) :: (digit_bytes d ++ rest))
    end;
    cbn [hd digit_bytes bytes];
    (erewrite scan_digit_step; [|reflexivity|reflexivity]);
    rewrite IHd; cbn [uint_value Decimal.nb_digits];
    destruct (scan_digits 10 rest _); reflexivity.
Qed.

Lemma uint_value_pos d acc :
  uint_value d (Z.pos acc) = Z.pos (Pos.of_uint_acc d acc).
Proof.
  revert acc. induction d; intros acc; cbn [uint_value Pos.of_uint_acc];
    [done | ..];
    match goal with
    | |- uint_value d ?a = Z.pos (Pos.of_uint_acc d ?b) =>
      replace a with (Z.pos b) by lia; apply IHd
    end.
Qed.

Lemma uint_value_0 d : uint_value d 0 = Z.of_N (Pos.of_uint d).
Proof.
  induction d; cbn [uint_value Pos.of_uint]; [done | exact IHd | ..];
    cbn [Z.mul Z.add Z.of_N]; apply uint_value_pos.
Qed.

Lemma uint_value_to_uint p : uint_value (Pos.to_uint p) 0 = Z.pos p.
Proof. by rewrite uint_value_0, DecimalPos.Unsigned.of_to. Qed.

Lemma to_uint_nonzero_head p : nonzero_head (Pos.to_uint p).
Proof.
  pose proof (DecimalPos.Unsigned.to_of (Pos.to_uint p)) as H.
  rewrite DecimalPos.Unsigned.of_to in H. cbn [N.to_uint] in H.
  pose proof (DecimalPos.Unsigned.to_uint_nonnil p) as Hnil.
  pose proof (DecimalPos.Unsigned.to_uint_nonzero p) as Hz.
  destruct (Pos.to_uint p) as [|u| | | | | | | | |]; cbn [nonzero_head]; try done.
  unfold Decimal.unorm in H. cbn [Decimal.nzhead] in H.
  pose proof (DecimalFacts.nzhead_nonzero u) as Hh.
  destruct (Decimal.nzhead u) eqn:E; try discriminate.
  - injection H as ->. by apply Hz.
  - by eapply Hh.
Qed.

Lemma digit_bytes_nonul d : Forall (λ b, b ≠ NUL) (digit_bytes d).
Proof.
  induction d; [constructor | ..];
    match goal with
    | |- context [digit_bytes (?D d)] =>
      change (digit_bytes (D d))
        with (hd x00 (digit_bytes (D Decimal.Nil)) :: digit_bytes d)
    end;
    (constructor; [discriminate | exact IHd]).
Qed.

Lemma digit_bytes_length d : length (digit_bytes d) = Decimal.nb_digits d.
Proof.
  induction d; [done | ..];
    match goal with
    | |- context [digit_bytes (?D d)] =>
      change (digit_bytes (D d))
        with (hd x00 (digit_bytes (D Decimal.Nil)) :: digit_bytes d)
    end;
    cbn [length Decimal.nb_digits]; by rewrite IHd.
Qed.

Lemma decimal_pos p : decimal (Z.pos p) = digit_bytes (Pos.to_uint p).
Proof.
  unfold decimal, digit_bytes. cbn [Z.to_int NilZero.string_of_int].
  pose proof (DecimalPos.Unsigned.to_uint_nonnil p).
  unfold NilZero.string_of_uint. by destruct (Pos.to_uint p).
Qed.

Lemma decimal_neg p : decimal (Z.neg p) = x2d :: digit_bytes (Pos.to_uint p).
Proof.
  unfold decimal, digit_bytes. cbn [Z.to_int NilZero.string_of_int].
  pose proof (DecimalPos.Unsigned.to_uint_nonnil p).
  unfold NilZero.string_of_uint. by destruct (Pos.to_uint p).
Qed.

(** A numeral that does not start with 0 is read in base 10, with no white
    space and no sign before it. *)
Lemma digit_bytes_prefixes d rest :
  nonzero_head d →
  skip_spaces (digit_bytes d ++ rest) = 0
  ∧ sign_prefix (digit_bytes d ++ rest) = (false, 0)
  ∧ base_prefix (digit_bytes d ++ rest) = (10%Z, 0).
Proof.
  destruct d; cbn [nonzero_head]; try done; intros _;
    match goal with
    | |- context [digit_bytes (?D d)] =>
      change (digit_bytes (D d) ++ rest)
        with (hd x00 (digit_bytes (D Decimal.Nil)) :: (digit_bytes d ++ rest))
    end;
    split_and!; reflexivity.
Qed.

Lemma scan_digits_numeral d :
  scan_digits 10 (digit_bytes d) 0 = (uint_value d 0, Decimal.nb_digits d).
Proof.
  pose proof (scan_digits_text d [] 0) as H. rewrite app_nil_r in H.
  rewrite H. cbn [scan_digits]. by rewrite Nat.add_0_r.
Qed.

Lemma nonzero_head_digits d : nonzero_head d → 0 < Decimal.nb_digits d.
Proof. destruct d; cbn [nonzero_head Decimal.nb_digits]; (done || lia). Qed.

Lemma clamp_result LONG_MAX (v : Z) (e : nat) :
  (if (LONG_MAX <? v)%Z then (LONG_MAX, e, ERANGE)
   else if (v <? LONG_MIN LONG_MAX)%Z then (LONG_MIN LONG_MAX, e, ERANGE)
   else (v, e, 0%Z)).1.2 = e.
Proof. destruct (_ <? _)%Z; [done|]. by destruct (_ <? _)%Z. Qed.

Lemma strtol_decimal LONG_MAX z :
  strtol LONG_MAX (decimal z)
  = if (LONG_MAX <? z)%Z then (LONG_MAX, length (decimal z), ERANGE)
    else if (z <? LONG_MIN LONG_MAX)%Z
         then (LONG_MIN LONG_MAX, length (decimal z), ERANGE)
         else (z, length (decimal z), 0%Z).
Proof.
  destruct z as [|p|p].
  - reflexivity.
  - rewrite decimal_pos. set (d := Pos.to_uint p).
    destruct (digit_bytes_prefixes d [] (to_uint_nonzero_head p))
      as (H0 & H1 & H2).
    rewrite app_nil_r in H0, H1, H2.
    pose proof (nonzero_head_digits d (to_uint_nonzero_head p)) as Hnb.
    unfold strtol. rewrite H0, drop_0, H1.
    change (0 + 0) with 0. rewrite drop_0, H2.
    change (0 + 0) with 0. rewrite drop_0.
    rewrite scan_digits_numeral, digit_bytes_length.
    rewrite (uint_value_to_uint p : uint_value d 0 = Z.pos p).
    destruct (Decimal.nb_digits d =? 0) eqn:E; [apply Nat.eqb_eq in E; lia|].
    reflexivity.
  - rewrite decimal_neg. set (d := Pos.to_uint p).
    destruct (digit_bytes_prefixes d [] (to_uint_nonzero_head p))
      as (_ & _ & H2).
    rewrite app_nil_r in H2.
    pose proof (nonzero_head_digits d (to_uint_nonzero_head p)) as Hnb.
    unfold strtol.
    change (skip_spaces (x2d :: digit_bytes d)) with 0.
    change (sign_prefix (drop 0 (x2d :: digit_bytes d))) with (true, 1).
    cbv beta iota.
    change (drop (0 + 1) (x2d :: digit_bytes d)) with (digit_bytes d).
    rewrite H2.
    change (drop (0 + 1 + 0) (x2d :: digit_bytes d)) with (digit_bytes d).
    rewrite scan_digits_numeral. cbn [length]. rewrite digit_bytes_length.
    rewrite (uint_value_to_uint p : uint_value d 0 = Z.pos p).
    destruct (Decimal.nb_digits d =? 0) eqn:E; [apply Nat.eqb_eq in E; lia|].
    reflexivity.
Qed.

Lemma decimal_nonul z : Forall (λ b, b ≠ NUL) (decimal z).
Proof.
  destruct z as [|p|p].
  - repeat constructor. discriminate.
  - rewrite decimal_pos. apply digit_bytes_nonul.
  - rewrite decimal_neg. constructor; [discriminate | apply digit_bytes_nonul].
Qed.

Lemma decimal_nonempty z : 0 < length (decimal z).
Proof.
  destruct z as [|p|p].
  - simpl. lia.
  - rewrite decimal_pos, digit_bytes_length.
    apply nonzero_head_digits, to_uint_nonzero_head.
  - rewrite decimal_neg. simpl. lia.
Qed.

Lemma int_of_long_id z : (INT_MIN ≤ z ≤ INT_MAX)%Z → int_of_long z = z.
Proof.
  unfold INT_MIN, INT_MAX, int_of_long. intros H.
  rewrite Z.mod_small by lia. lia.
Qed.

(** X14. Round trip with the [%d] text: for every [z] in the range of
    [long], [ParseInt] of the decimal text of [z] succeeds and gives [z]
    narrowed to [int], which is [z] itself when [z] is in the range of
    [int].  For [z] outside the range of [long] it fails and leaves the
    output alone. *)
Theorem ParseInt_decimal_round_trip (LONG_MAX z nP : Z) :
  (2147483647 ≤ LONG_MAX)%Z →
  ((INT_MIN ≤ z ≤ INT_MAX)%Z →
   ParseInt LONG_MAX (decimal z) nP = (true, z))
  ∧ ((LONG_MIN LONG_MAX ≤ z ≤ LONG_MAX)%Z →
     ParseInt LONG_MAX (decimal z) nP = (true, int_of_long z))
  ∧ ((z < LONG_MIN LONG_MAX ∨ LONG_MAX < z)%Z →
     ParseInt LONG_MAX (decimal z) nP = (false, nP)).
Proof.
  intros Hmax.
  pose proof (decimal_nonempty z) as Hne.
  assert (Hnth : nth (length (decimal z)) (decimal z) NUL = NUL)
    by (by apply nth_overflow).
  assert (Hin : (LONG_MIN LONG_MAX ≤ z ≤ LONG_MAX)%Z →
                ParseInt LONG_MAX (decimal z) nP = (true, int_of_long z)).
  { intros Hz. unfold ParseInt. rewrite strtol_decimal.
    destruct (LONG_MAX <? z)%Z eqn:E1; [apply Z.ltb_lt in E1; lia|].
    destruct (z <? LONG_MIN LONG_MAX)%Z eqn:E2; [apply Z.ltb_lt in E2; lia|].
    rewrite Hnth.
    destruct (length (decimal z) =? 0) eqn:E; [apply Nat.eqb_eq in E; lia|].
    reflexivity. }
  split_and!.
  - intros Hz. rewrite Hin, int_of_long_id; [done | done |].
    unfold INT_MIN, INT_MAX, LONG_MIN in *. lia.
  - exact Hin.
  - intros Hz. unfold ParseInt. rewrite strtol_decimal.
    destruct (LONG_MAX <? z)%Z eqn:E1.
    + rewrite orb_true_r. done.
    + apply Z.ltb_ge in E1.
      destruct (z <? LONG_MIN LONG_MAX)%Z eqn:E2;
        [|apply Z.ltb_ge in E2; lia].
      rewrite orb_true_r. done.
Qed.

Lemma ParseInt_decimal_round_trip_witness :
  ParseInt (2 ^ 63 - 1) (decimal (-2147483648)) 7 = (true, (-2147483648)%Z)
  ∧ ParseInt (2 ^ 63 - 1) (decimal 4294967297) 7 = (true, 1%Z)
  ∧ ParseInt (2 ^ 63 - 1) (decimal (2 ^ 63)) 7 = (false, 7%Z).
Proof.
  split_and!.
  - destruct (ParseInt_decimal_round_trip (2 ^ 63 - 1) (-2147483648) 7)
      as (H & _ & _); [lia|].
    apply H. unfold INT_MIN, INT_MAX. lia.
  - destruct (ParseInt_decimal_round_trip (2 ^ 63 - 1) 4294967297 7)
      as (_ & H & _); [lia|].
    rewrite H by (unfold LONG_MIN; lia). reflexivity.
  - destruct (ParseInt_decimal_round_trip (2 ^ 63 - 1) (2 ^ 63) 7)
      as (_ & _ & H); [lia|].
    apply H. right. lia.
Defined.

(** ** The pid written into the lock file *)

Lemma uint_value_lower d acc :
  (0 ≤ acc)%Z →
  (acc * 10 ^ Z.of_nat (Decimal.nb_digits d) ≤ uint_value d acc)%Z.
Proof.
  revert acc. induction d; intros acc Hacc;
    cbn [uint_value Decimal.nb_digits];
    [rewrite Z.pow_0_r; lia | ..];
    rewrite Nat2Z.inj_succ, Z.pow_succ_r by lia;
    match goal with
    | |- (_ ≤ uint_value d ?a)%Z =>
      specialize (IHd a ltac:(lia));
      assert (0 < 10 ^ Z.of_nat (Decimal.nb_digits d))%Z
        by (apply Z.pow_pos_nonneg; lia);
      nia
    end.
Qed.

Lemma nonzero_head_lower d :
  nonzero_head d →
  (10 ^ (Z.of_nat (Decimal.nb_digits d) - 1) ≤ uint_value d 0)%Z.
Proof.
  destruct d; cbn [nonzero_head]; try done; intros _;
    cbn [uint_value Decimal.nb_digits];
    rewrite Nat2Z.inj_succ;
    replace (Z.succ (Z.of_nat (Decimal.nb_digits d)) - 1)%Z
      with (Z.of_nat (Decimal.nb_digits d)) by lia;
    match goal with
    | |- (_ ≤ uint_value d ?a)%Z =>
      pose proof (uint_value_lower d a ltac:(lia));
      assert (0 < 10 ^ Z.of_nat (Decimal.nb_digits d))%Z
        by (apply Z.pow_pos_nonneg; lia);
      nia
    end.
Qed.

Lemma to_uint_digits p :
  (Z.pos p ≤ 2 ^ 31)%Z → Decimal.nb_digits (Pos.to_uint p) ≤ 10.
Proof.
  intros Hp.
  pose proof (nonzero_head_lower _ (to_uint_nonzero_head p)) as H.
  rewrite uint_value_to_uint in H.
  pose proof (nonzero_head_digits _ (to_uint_nonzero_head p)) as Hnb.
  assert (Hlt : (10 ^ (Z.of_nat (Decimal.nb_digits (Pos.to_uint p)) - 1)
                 < 10 ^ 10)%Z) by lia.
  apply Z.pow_lt_mono_r_iff in Hlt; lia.
Qed.

Lemma decimal_length_int z :
  (INT_MIN ≤ z ≤ INT_MAX)%Z → length (decimal z) ≤ 11.
Proof.
  unfold INT_MIN, INT_MAX. intros Hz. destruct z as [|p|p].
  - simpl. lia.
  - rewrite decimal_pos, digit_bytes_length.
    pose proof (to_uint_digits p). lia.
  - rewrite decimal_neg. cbn [length]. rewrite digit_bytes_length.
    pose proof (to_uint_digits p). lia.
Qed.

Lemma pid_text_fits env :
  (INT_MIN ≤ getpid_ret env ≤ INT_MAX)%Z →
  sprintf_note 16 (pid_text env) = []
  ∧ cstring (pidStr_after env) = pid_text env
  ∧ strlen (pidStr_after env) = length (decimal (getpid_ret env)) + 1.
Proof.
  intros Hpid. pose proof (decimal_length_int _ Hpid) as Hlen.
  assert (Hl : length (pid_text env) = length (decimal (getpid_ret env)) + 1).
  { unfold pid_text. rewrite length_app. simpl. lia. }
  assert (Hn : Forall (λ b, b ≠ NUL) (pid_text env)).
  { unfold pid_text. apply Forall_app. split; [apply decimal_nonul|].
    repeat constructor. discriminate. }
  unfold sprintf_note, pidStr_after, fitted.
  rewrite take_min_length, take_ge by lia.
  split_and!.
  - destruct (16 <=? length (pid_text env)) eqn:E;
      [apply Nat.leb_le in E; lia | done].
  - by apply put_cstring.
  - rewrite put_strlen by done. exact Hl.
Qed.

(** X15. When the process id is in the range of [int], a successful
    [LockProcess] writes exactly its decimal text and a newline to the
    descriptor, after the [ftruncate], with no formatting diagnostic; the
    write counts as short, and is reported as a debug diagnostic, exactly
    when [write] returns less than the length of that text. *)
Theorem LockProcess_writes_pid (env : sysenv) (component : list byte)
    (g : LockFile) (t : list event) :
  length (path g) = PATH_MAX →
  (INT_MIN ≤ getpid_ret env ≤ INT_MAX)%Z →
  (0 ≤ open_ret env)%Z → (0 ≤ lockf_ret env)%Z →
  ∃ ps,
    LockProcess env component (mkProc g t) = Some (true, ps)
    ∧ trace ps
      = t ++ open_events component g
          ++ Call (SysLockfTest (open_ret env) 0)
          :: Call (SysFtruncate (open_ret env) 0)
          :: truncate_report env
          ++ Call (SysWrite (open_ret env)
                     (decimal (getpid_ret env) ++ [x0a]))
          :: (if (write_ret env
                  <? Z.of_nat (length (decimal (getpid_ret env)) + 1))%Z
              then [Report (DbgPrint "Failed writing lock file (err %d, %s).\n"
                              [AInt (write_errno env);
                               AStrerror (write_errno env)])]
              else []).
Proof.
  intros Hg Hpid Ho Hl. rewrite LockProcess_locked by done.
  eexists. split; [reflexivity|]. cbn [trace].
  destruct (pid_text_fits env Hpid) as (Hnote & Hstr & Hlen).
  unfold locked_events, write_report. rewrite Hnote, Hstr, Hlen.
  reflexivity.
Qed.

Lemma LockProcess_writes_pid_witness :
  length (path zero_lock) = PATH_MAX
  ∧ ∃ ps,
      LockProcess env_truncate_fails (bytes "logd") (mkProc zero_lock [])
        = Some (true, ps)
      ∧ last (calls (trace ps)) = Some (SysWrite 3 (bytes "1234" ++ [x0a])).
Proof.
  assert (Hlen : length (path zero_lock) = PATH_MAX) by (vm_compute; reflexivity).
  split; [exact Hlen|].
  destruct (LockProcess_writes_pid env_truncate_fails (bytes "logd")
              zero_lock [] Hlen) as (ps & Hrun & Htrace);
    [unfold INT_MIN, INT_MAX; simpl; lia | simpl; lia | simpl; lia |].
  exists ps. split; [exact Hrun|].
  rewrite Htrace. vm_compute. reflexivity.
Defined.
